(** * Finite-Element-Method: Mesh.py and heat_solver.py

    A shallow embedding of the triangular mesh ([Mesh], [RectMesher]) and of
    the backward-Euler heat solver ([HeatSolver.solve]), with the properties
    of the specification stated over it.

    Conventions of the embedding.
    - Vertex indices are Python / numpy integers: [Z].
    - Coordinates, areas, field values and time stamps are floating point
      numbers in the program; they are modelled by exact rationals [Q], and
      equalities between computed numbers are stated with [Qeq]. Where a
      statement compares two computed numbers whose rounding differs, the
      code is embedded a second time over binary64 numbers (module
      [Binary64]), with the operations of IEEE 754 that numpy uses.
    - A face is a row of the [(F, 3)] array [faces]: a triple of indices.
    - A Python [set] is a [gset]; [list(s)] is [elements s], whose order is
      not part of any statement below.
    - A call that can raise returns an [outcome]. *)

From Stdlib Require Import ZArith QArith Qabs Qcanon Lia List.
From Stdlib Require Import PrimFloat.
From stdpp Require Import base gmap sets list.
From stdpp Require Import sorting.

Local Open Scope Z_scope.

(** ** Exceptions and outcomes *)

Inductive exn : Type :=
  | IndexError
  | TypeError
  | ValueError
  | ZeroDivisionError
  | LinAlgError.

Inductive outcome (A : Type) : Type :=
  | Ok (a : A)
  | Raise (e : exn).
Arguments Ok {A} a.
Arguments Raise {A} e.

#[global] Instance outcome_ret : MRet outcome := λ A a, Ok a.
#[global] Instance outcome_bind : MBind outcome := λ A B k o,
  match o with
  | Ok a => k a
  | Raise e => Raise e
  end.

(** [[f(x) for x in l]] where [f] may raise: the first exception wins. *)
Fixpoint omap {A B} (f : A → outcome B) (l : list A) : outcome (list B) :=
  match l with
  | [] => Ok []
  | x :: l' => y ← f x ; ys ← omap f l' ; Ok (y :: ys)
  end.

(** ** Data *)

Definition point : Type := Q * Q.
Definition face : Type := Z * Z * Z.
Definition segment : Type := Z * Z.

(** [for v in face] *)
Definition face_list (f : face) : list Z :=
  let '(a, b, c) := f in [a; b; c].

(** [face[i]] for [i] in [0..2]. *)
Definition face_nth (f : face) (i : nat) : Z :=
  let '(a, b, c) := f in
  match i with
  | O => a
  | S O => b
  | _ => c
  end.

(** [range(n)]: empty when [n <= 0]. *)
Definition range (n : Z) : list Z := Z.of_nat <$> seq 0 (Z.to_nat n).

(** numpy indexing [a[i]] of a one-dimensional array: negative indices count
    from the end, anything outside [-len(a) .. len(a)-1] raises. *)
Definition np_index {A} (a : list A) (i : Z) : outcome A :=
  let n := Z.of_nat (length a) in
  if decide (0 ≤ i < n) then
    match a !! Z.to_nat i with Some x => Ok x | None => Raise IndexError end
  else if decide (- n ≤ i < 0) then
    match a !! Z.to_nat (n + i) with Some x => Ok x | None => Raise IndexError end
  else Raise IndexError.

(** [a[face]]: fancy indexing with a row of three indices. *)
Definition np_take {A} (a : list A) (f : face) : outcome (list A) :=
  omap (np_index a) (face_list f).

(** Python's builtin [sum]: left fold starting from [0]. *)
Definition py_sum (l : list Q) : Q := fold_left Qplus l 0%Q.

(** ** Mesh *)

Record Mesh : Type := mkMesh {
  points : list point;
  faces : list face;
  boundary : list segment;
  boundary_idxs : list Z;
  areas : list Q;
  edges : list segment;
}.

(** [tuple(sorted([a, b]))] *)
Definition sorted_edge (a b : Z) : segment :=
  if decide (a ≤ b) then (a, b) else (b, a).

(** Body of [for i in range(3)] in [_get_all_edges]. *)
Definition add_side (f : face) (all_edges : gset segment) (i : nat) : gset segment :=
  all_edges ∪ {[ sorted_edge (face_nth f i) (face_nth f ((i + 1) mod 3)) ]}.

Definition add_face_sides (all_edges : gset segment) (f : face) : gset segment :=
  fold_left (add_side f) (seq 0 3) all_edges.

(** The set built by [Mesh._get_all_edges] before it is turned into an array. *)
Definition all_edges_set (fs : list face) : gset segment :=
  fold_left add_face_sides fs ∅.

(** [Mesh._get_all_edges] *)
Definition _get_all_edges (fs : list face) : list segment :=
  elements (all_edges_set fs).

(** [self.boundary.ravel()] *)
Definition ravel (b : list segment) : list Z :=
  flat_map (λ s, [s.1; s.2]) b.

Section MeshInit.

(** [calculate_triangle_area] of [utils.helper]: applied to the three corner
    points of a face. *)
Variable calculate_triangle_area : list point → Q.

(** [Mesh.__init__]. The only step that can raise is [self.points[face]]. *)
Definition Mesh_init (pts : list point) (fs : list face) (bd : list segment)
  : outcome Mesh :=
  let bidx := elements (list_to_set (ravel bd) : gset Z) in
  ars ← omap (λ f, tri ← np_take pts f ; Ok (calculate_triangle_area tri)) fs ;
  Ok {| points := pts; faces := fs; boundary := bd;
        boundary_idxs := bidx; areas := ars;
        edges := _get_all_edges fs |}.

End MeshInit.

(** *** Metrics *)

(** [np.mean] of a one-dimensional array. *)
Definition np_mean (l : list Q) : Q :=
  (fold_left Qplus l 0 / inject_Z (Z.of_nat (length l)))%Q.

(** [Mesh.calculate_total_value]. The result [None] is Python's [None]: the
    function falls off its end when neither branch is taken. *)
Definition calculate_total_value (m : Mesh) (u : list Q) : outcome (option Q) :=
  if decide (length u = length (faces m)) then
    terms ← omap (λ face_idx,
               a ← np_index (areas m) face_idx ;
               x ← np_index u face_idx ;
               Ok (a * x)%Q)
             (range (Z.of_nat (length (faces m)))) ;
    Ok (Some (py_sum terms))
  else if decide (length u = length (points m)) then
    terms ← omap (λ face_idx,
               a ← np_index (areas m) face_idx ;
               f ← np_index (faces m) face_idx ;
               vals ← np_take u f ;
               Ok (a * np_mean vals)%Q)
             (range (Z.of_nat (length (faces m)))) ;
    Ok (Some (py_sum terms))
  else Ok None.

(** A numpy scalar is either a number or one of [inf], [nan]. *)
Inductive npfloat : Type :=
  | Finite (q : Q)
  | NonFinite.

(** [Mesh.calculate_mean_value]. [None / x] is a [TypeError]; with no face
    both operands are the Python integer [0]; otherwise the operands are
    numpy scalars, whose division by zero yields [inf] or [nan]. *)
Definition calculate_mean_value (m : Mesh) (u : list Q) : outcome npfloat :=
  total ← calculate_total_value m u ;
  let area := py_sum (areas m) in
  match total with
  | None => Raise TypeError
  | Some t =>
      if decide (faces m = []) then Raise ZeroDivisionError
      else if Qeq_bool area 0 then Ok NonFinite
      else Ok (Finite (t / area)%Q)
  end.

(** *** Face adjacency *)

(** [enumerate(l)], counting from [k]. *)
Fixpoint enumerate_from {A} (k : Z) (l : list A) : list (Z * A) :=
  match l with
  | [] => []
  | x :: l' => (k, x) :: enumerate_from (k + 1) l'
  end.

Definition enumerate {A} (l : list A) : list (Z * A) := enumerate_from 0 l.

(** [np.where(self.faces == v)[0]]: the row index of every entry of the
    array equal to [v], in row-major order (a row with two matching entries
    is listed twice). *)
Definition np_where_rows (fs : list face) (v : Z) : list Z :=
  flat_map (λ '(idx, f),
              flat_map (λ x, if decide (x = v) then [idx] else []) (face_list f))
           (enumerate fs).

(** [l.count(x)] *)
Definition py_count (l : list Z) (x : Z) : nat :=
  length (filter (λ y, y = x) l).

(** [[idx for idx in l if l.count(idx) == 2]] *)
Definition keep_twice (l : list Z) : list Z :=
  filter (λ idx, py_count l idx = 2%nat) l.

(** Body of the outer loop of [calculate_face_neighbors]. *)
Definition face_neighbors_step (fs : list face)
    (face_neighbors : gmap Z (list Z)) (entry : Z * face) : gmap Z (list Z) :=
  let '(face_idx, f) := entry in
  let extended :=
    fold_left (λ fn neighbor_idx,
                 alter (λ l, l ++ np_where_rows fs neighbor_idx) face_idx fn)
              (face_list f) face_neighbors in
  alter keep_twice face_idx extended.

(** [Mesh.calculate_face_neighbors]; the dictionary it returns is also
    stored as [self.face_neighbors]. *)
Definition calculate_face_neighbors (self : Mesh) : gmap Z (list Z) :=
  let fs := faces self in
  let init : gmap Z (list Z) :=
    list_to_map ((λ face_idx, (face_idx, [])) <$> range (Z.of_nat (length fs))) in
  fold_left (face_neighbors_step fs) (enumerate fs) init.

(** "[B] is listed among the neighbors of [A]". *)
Definition is_neighbor (m : Mesh) (A B : Z) : Prop :=
  ∃ l, calculate_face_neighbors m !! A = Some l ∧ B ∈ l.

(** ** RectMesher *)

Record RectMesher : Type := mkRectMesher {
  corners : point * point;
  resolution : Z * Z;
}.

(** [RectMesher.__init__] only stores its arguments. *)
Definition RectMesher_init (c : point * point) (r : Z * Z) : outcome RectMesher :=
  Ok {| corners := c; resolution := r |}.

(** [np.linspace(start, stop, num)] with the default [endpoint=True]. *)
Definition linspace (start stop : Q) (num : Z) : outcome (list Q) :=
  if decide (num < 0) then Raise ValueError
  else
    let div := num - 1 in
    let delta := (stop - start)%Q in
    let step := (delta / inject_Z div)%Q in
    let y := (λ i, if decide (0 < div) then (inject_Z i * step + start)%Q
                   else (inject_Z i * delta + start)%Q) <$> range num in
    Ok (if decide (1 < num) then <[Z.to_nat (num - 1) := stop]> y else y).

(** [get_index] of [RectMesher.mesh]. *)
Definition get_index (nx : Z) (i j : Z) : Z := j * nx + i.

(** The two triangles of the grid cell [(i, j)]. *)
Definition cell_faces (nx : Z) (i j : Z) : list face :=
  [ (get_index nx i j, get_index nx (i + 1) j, get_index nx (i + 1) (j + 1));
    (get_index nx i j, get_index nx (i + 1) (j + 1), get_index nx i (j + 1)) ].

(** [[[x, y] for y in y_range for x in x_range]] *)
Definition grid_points (x_range y_range : list Q) : list point :=
  flat_map (λ y, (λ x, (x, y)) <$> x_range) y_range.

(** The nested loop of [RectMesher.mesh] that fills [faces]. *)
Definition grid_faces (nx ny : Z) : list face :=
  flat_map (λ i, flat_map (λ j, cell_faces nx i j) (range (ny - 1))) (range (nx - 1)).

Section RectMesherMesh.

Variable calculate_triangle_area : list point → Q.

(** [get_boundary_from_points_faces] of [utils.helper]. *)
Variable get_boundary_from_points_faces :
  list point → list face → outcome (list segment).

(** [RectMesher.mesh] *)
Definition RectMesher_mesh (self : RectMesher) : outcome Mesh :=
  let '((x0, y0), (x1, y1)) := corners self in
  let '(nx, ny) := resolution self in
  x_range ← linspace x0 x1 nx ;
  y_range ← linspace y0 y1 ny ;
  let pts := grid_points x_range y_range in
  let fs := grid_faces nx ny in
  bd ← get_boundary_from_points_faces pts fs ;
  Mesh_init calculate_triangle_area pts fs bd.

End RectMesherMesh.

(** ** Collaborators of [utils.helper], for concrete runs *)

(** Modelled from the spec: [calculate_triangle_area] of [utils.helper], which
    is not part of the sources at hand; "planar area of a triangle from its
    three vertex coordinates (cross-product/2 formula)", unsigned. *)
Definition triangle_area_spec (tri : list point) : Q :=
  match tri with
  | [(xa, ya); (xb, yb); (xc, yc)] =>
      (Qabs ((xb - xa) * (yc - ya) - (xc - xa) * (yb - ya)) / 2)%Q
  | _ => 0%Q
  end.

(** The three sides of a face, in the order of its vertices. *)
Definition face_sides (f : face) : list segment :=
  let '(a, b, c) := f in [(a, b); (b, c); (c, a)].

(** Modelled from the spec: [get_boundary_from_points_faces] of
    [utils.helper], which is not part of the sources at hand; "the set of
    edges belonging to exactly one retained face". *)
Definition boundary_spec (pts : list point) (fs : list face) : outcome (list segment) :=
  let sides := flat_map face_sides fs in
  let occurrences (s : segment) :=
    length (filter (λ s', sorted_edge s'.1 s'.2 = sorted_edge s.1 s.2) sides) in
  Ok (filter (λ s, occurrences s = 1%nat) sides).

(** ** HeatSolver *)

(** Objects of the Python heap are addressed by their position in the store;
    a new object is appended, so an address is never reused. *)
Notation loc := nat (only parsing).

(** Lines written to standard output by [solve]. *)
Inductive line : Type :=
  | Banner
  | Progress (t mean : Q).

(** [HeatSolverResult]: [u_values] holds references to arrays. *)
Record HeatSolverResult : Type := mkHeatSolverResult {
  t_values : list Q;
  u_values : list loc;
}.

(** The attributes of a [HeatSolver] that [solve] reads. The arrays are
    references into the store. *)
Record HeatSolver : Type := mkHeatSolver {
  hs_points : loc;
  hs_faces : loc;
  hs_boundary : loc;
  hs_M : loc;
  hs_K : loc;
  dt : Q;
  num_iterations : Z;
}.

(** A function of position, such as [load_function] or the members of
    [robin_bc]. *)
Definition field_fn : Type := point → Q.

Section HeatSolverSolve.

(** numpy arrays and the operations [solve] applies to them. *)
Variable ndarray : Type.
Variable nd_add : ndarray → ndarray → outcome ndarray.
Variable nd_scale : ndarray → Q → ndarray.
Variable nd_matmul : ndarray → ndarray → outcome ndarray.
Variable linalg_solve : ndarray → ndarray → outcome ndarray.

(** The assembly protocol of [utils.matrices] and its element kernels. *)
Variable kernel : Type.
Variable calculate_element_load_vector : kernel.
Variable calculate_element_boundary_mass_matrix : kernel.
Variable calculate_element_boundary_load_vector : kernel.
Variable assemble_vector : ndarray → ndarray → kernel → field_fn → outcome ndarray.
Variable assemble_matrix : ndarray → ndarray → kernel → field_fn → outcome ndarray.

(** [calculate_mean_value] of [utils.measures], used for progress lines. *)
Variable measures_mean_value : ndarray → ndarray → ndarray → outcome Q.

(** The part of the world [solve] reads and writes: the store of arrays, the
    attribute [self.result], and standard output. *)
Record world : Type := mkWorld {
  heap : list ndarray;
  result : option HeatSolverResult;
  stdout : list line;
}.

(** A computation that reads and writes the world and may raise; the world
    reached is kept also when it raises. *)
Definition st (A : Type) : Type := world → outcome A * world.

Definition st_ret {A} (a : A) : st A := λ w, (Ok a, w).

Definition st_bind {A B} (m : st A) (k : A → st B) : st B := λ w,
  match m w with
  | (Ok a, w') => k a w'
  | (Raise e, w') => (Raise e, w')
  end.

Notation "x ⇐ m ;; k" := (st_bind m (λ x, k))
  (at level 100, m at next level, k at level 200, right associativity, only parsing).
Notation "m ;;; k" := (st_bind m (λ _, k))
  (at level 100, k at level 200, right associativity, only parsing).

(** A pure step that may raise. *)
Definition lift {A} (o : outcome A) : st A := λ w, (o, w).

(** A new array object. *)
Definition alloc (v : ndarray) : st loc := λ w,
  (Ok (length (heap w)),
   {| heap := heap w ++ [v]; result := result w; stdout := stdout w |}).

(** Reading through a reference. A reference held by the program always
    points to a live object, so the second branch is never taken on the
    worlds considered below. *)
Definition load (l : loc) : st ndarray := λ w,
  match heap w !! l with
  | Some v => (Ok v, w)
  | None => (Raise TypeError, w)
  end.

(** Overwriting the contents of an existing array object. *)
Definition store (l : loc) (v : ndarray) : st unit := λ w,
  (Ok (), {| heap := <[l := v]> (heap w); result := result w; stdout := stdout w |}).

(** [a += b] on arrays: the sum is written into the object [a]. *)
Definition iadd (a b : loc) : st unit :=
  av ⇐ load a ;; bv ⇐ load b ;; v ⇐ lift (nd_add av bv) ;; store a v.

(** [print(...)] *)
Definition print (ln : line) : st unit := λ w,
  (Ok (), {| heap := heap w; result := result w; stdout := stdout w ++ [ln] |}).

(** [self.result = r] *)
Definition set_result (r : HeatSolverResult) : st unit := λ w,
  (Ok (), {| heap := heap w; result := Some r; stdout := stdout w |}).

(** [for x in l: s = body(s, x)] *)
Fixpoint for_each {A S} (l : list A) (body : S → A → st S) (s : S) : st S :=
  match l with
  | [] => st_ret s
  | x :: l' => s' ⇐ body s x ;; for_each l' body s'
  end.

(** The progress line printed for the last recorded sample. *)
Definition report (self : HeatSolver) (t : Q) (u : loc) : st unit :=
  pts ⇐ load (hs_points self) ;;
  fcs ⇐ load (hs_faces self) ;;
  uv ⇐ load u ;;
  mean ⇐ lift (measures_mean_value pts fcs uv) ;;
  print (Progress t mean).

(** The local variables the time loop of [solve] updates. *)
Record loop_vars : Type := mkLoopVars {
  lv_u : loc;
  lv_t_values : list Q;
  lv_u_values : list loc;
}.

(** [self.dt * (i+1)], the time stamp appended by the iteration of index
    [i]. *)
Definition time_stamp (self : HeatSolver) (i : Z) : Q :=
  (dt self * inject_Z (i + 1))%Q.

(** One iteration of the time loop of [solve]: [K_temp] and [b] are the
    local arrays prepared before the loop. *)
Definition solve_iteration (self : HeatSolver) (K_temp b : loc)
    (vars : loop_vars) (i : Z) : st loop_vars :=
  Mv ⇐ load (hs_M self) ;;
  Kv ⇐ load K_temp ;;
  lhs ⇐ lift (nd_add Mv (nd_scale Kv (dt self))) ;;
  uv ⇐ load (lv_u vars) ;;
  Mu ⇐ lift (nd_matmul Mv uv) ;;
  bv ⇐ load b ;;
  rhs ⇐ lift (nd_add Mu (nd_scale bv (dt self))) ;;
  x ⇐ lift (linalg_solve lhs rhs) ;;
  u ⇐ alloc x ;;
  let t := time_stamp self i in
  let vars' := {| lv_u := u;
                  lv_t_values := lv_t_values vars ++ [t];
                  lv_u_values := lv_u_values vars ++ [u] |} in
  report self t u ;;;
  st_ret vars'.

(** The set-up of [solve], before the time loop: the load vector [b], the
    copy [K_temp] of [self.K], and the Robin terms added in place to both.
    Returns the references [(K_temp, b)]. *)
Definition assemble_system (self : HeatSolver)
    (robin_bc : option (field_fn * field_fn * field_fn))
    (load_function : option field_fn) : st (loc * loc) :=
  let load_function :=
    match load_function with Some f => f | None => λ _, 0%Q end in
  pts ⇐ load (hs_points self) ;;
  fcs ⇐ load (hs_faces self) ;;
  bv ⇐ lift (assemble_vector pts fcs calculate_element_load_vector load_function) ;;
  b ⇐ alloc bv ;;
  Kv ⇐ load (hs_K self) ;;
  K_temp ⇐ alloc Kv ;;
  match robin_bc with
  | None => st_ret ()
  | Some (W, g_D, g_N) =>
      bdy ⇐ load (hs_boundary self) ;;
      Rv ⇐ lift (assemble_matrix pts bdy calculate_element_boundary_mass_matrix W) ;;
      R ⇐ alloc Rv ;;
      rv ⇐ lift (assemble_vector pts bdy calculate_element_boundary_load_vector
                   (λ x, W x * g_D x + g_N x)%Q) ;;
      r ⇐ alloc rv ;;
      iadd K_temp R ;;;
      iadd b r
  end ;;;
  st_ret (K_temp, b).

(** [HeatSolver.solve] *)
Definition solve (self : HeatSolver) (u_initial : loc)
    (robin_bc : option (field_fn * field_fn * field_fn))
    (load_function : option field_fn) : st HeatSolverResult :=
  print Banner ;;;
  sys ⇐ assemble_system self robin_bc load_function ;;
  let '(K_temp, b) := sys in
  let vars := {| lv_u := u_initial;
                 lv_t_values := [0%Q];
                 lv_u_values := [u_initial] |} in
  report self 0%Q u_initial ;;;
  vars ⇐ for_each (range (num_iterations self)) (solve_iteration self K_temp b) vars ;;
  let res := {| t_values := lv_t_values vars; u_values := lv_u_values vars |} in
  set_result res ;;;
  st_ret res.

(** *** The linear system of the specification *)

(** [K_eff] and [b_eff]: [K] and the assembled load vector [b], to which the
    Robin matrix [R] and vector [r] are added when [robin_bc] is given. The
    arrays of the solver are read in the world [w] in which [solve] is
    called. *)
Definition effective_system (w : world) (self : HeatSolver)
    (robin_bc : option (field_fn * field_fn * field_fn))
    (load_function : option field_fn) (K_eff b_eff : ndarray) : Prop :=
  ∃ pts fcs K b,
    heap w !! hs_points self = Some pts ∧
    heap w !! hs_faces self = Some fcs ∧
    heap w !! hs_K self = Some K ∧
    assemble_vector pts fcs calculate_element_load_vector
      (match load_function with Some f => f | None => λ _, 0%Q end) = Ok b ∧
    match robin_bc with
    | None => K_eff = K ∧ b_eff = b
    | Some (W, g_D, g_N) =>
        ∃ bdy R r,
          heap w !! hs_boundary self = Some bdy ∧
          assemble_matrix pts bdy calculate_element_boundary_mass_matrix W = Ok R ∧
          assemble_vector pts bdy calculate_element_boundary_load_vector
            (λ x, W x * g_D x + g_N x)%Q = Ok r ∧
          nd_add K R = Ok K_eff ∧ nd_add b r = Ok b_eff
    end.

(** [u'] is what the linear solver returns for the system
    [(M + dt * K_eff) * u' = M * u + dt * b_eff], and it satisfies it. *)
Definition backward_euler_step (M K_eff b_eff : ndarray) (dt : Q)
    (u u' : ndarray) : Prop :=
  ∃ lhs Mu rhs,
    nd_add M (nd_scale K_eff dt) = Ok lhs ∧
    nd_matmul M u = Ok Mu ∧
    nd_add Mu (nd_scale b_eff dt) = Ok rhs ∧
    linalg_solve lhs rhs = Ok u' ∧
    nd_matmul lhs u' = Ok rhs.

(** What is assumed of [np.linalg.solve]: the array it returns solves the
    system it was given. *)
Definition linalg_solve_sound : Prop :=
  ∀ A y x, linalg_solve A y = Ok x → nd_matmul A x = Ok y.

(** The samples recorded after [k] iterations of the time loop started in
    the world [w1] with the local arrays [K_temp] and [b]. *)
Definition recorded (self : HeatSolver) (K_temp b : loc) (u_initial : loc)
    (w1 : world) (k : nat) (vars : loop_vars) (w : world) : Prop :=
  heap w1 `prefix_of` heap w ∧ result w = result w1 ∧
  length (lv_u_values vars) = S k ∧
  lv_u_values vars !! k = Some (lv_u vars) ∧
  lv_u_values vars !! 0%nat = Some u_initial ∧
  lv_t_values vars = 0%Q :: (time_stamp self <$> range (Z.of_nat k)) ∧
  ∀ Mv K_eff b_eff,
    heap w1 !! hs_M self = Some Mv → heap w1 !! K_temp = Some K_eff →
    heap w1 !! b = Some b_eff → linalg_solve_sound →
    ∀ i, (i < k)%nat →
      ∃ l l' u u',
        lv_u_values vars !! i = Some l ∧ lv_u_values vars !! S i = Some l' ∧
        heap w !! l = Some u ∧ heap w !! l' = Some u' ∧
        backward_euler_step Mv K_eff b_eff (dt self) u u'.

(** The array attributes of the solver refer to objects of the store. *)
Definition live_solver (w : world) (self : HeatSolver) : Prop :=
  is_Some (heap w !! hs_points self) ∧ is_Some (heap w !! hs_faces self) ∧
  is_Some (heap w !! hs_boundary self) ∧
  is_Some (heap w !! hs_M self) ∧ is_Some (heap w !! hs_K self).

(** *** Reasoning about computations *)

(** [wp m Φ w]: running [m] in the world [w] ends, with an outcome and in a
    world that satisfy [Φ]. *)
Definition wp {A} (m : st A) (Φ : outcome A → world → Prop) (w : world) : Prop :=
  Φ (m w).1 (m w).2.

End HeatSolverSolve.

Arguments heap {ndarray} w.
Arguments result {ndarray} w.
Arguments stdout {ndarray} w.
Arguments mkWorld {ndarray} heap result stdout.
Arguments st_ret {ndarray A} a w.
Arguments st_bind {ndarray A B} m k w.
Arguments lift {ndarray A} o w.
Arguments alloc {ndarray} v w.
Arguments load {ndarray} l w.
Arguments store {ndarray} l v w.
Arguments print {ndarray} ln w.
Arguments set_result {ndarray} r w.
Arguments for_each {ndarray A S} l body s w.
Arguments wp {ndarray A} m Φ w.
Arguments live_solver {ndarray} w self.

(** ** Vocabulary of the specification *)

(** Two pairs denote the same unordered vertex pair. *)
Definition same_pair (e s : segment) : Prop :=
  e = s ∨ e = (s.2, s.1).

#[global] Instance same_pair_dec e s : Decision (same_pair e s).
Proof. unfold same_pair. apply _. Defined.

(** The same triangle, its vertices listed in another order. *)
Definition same_triangle (f g : face) : Prop :=
  face_list f ≡ₚ face_list g.

(** [fs'] lists the triangles of [fs] in another order, each with its
    vertices possibly in another order. *)
Definition rearranged (fs fs' : list face) : Prop :=
  ∃ fs'', fs ≡ₚ fs'' ∧ Forall2 same_triangle fs'' fs'.

(** The vertices of a face, as a set. *)
Definition vertex_set (f : face) : gset Z := list_to_set (face_list f).

(** Two faces have exactly two vertices in common. *)
Definition share_exactly_two (f g : face) : Prop :=
  size (vertex_set f ∩ vertex_set g) = 2%nat.

(** The three vertex indices of a face are pairwise different. *)
Definition distinct_vertices (f : face) : Prop := NoDup (face_list f).

#[global] Instance distinct_vertices_dec f : Decision (distinct_vertices f).
Proof. unfold distinct_vertices. apply _. Defined.

(** Row [A] of the [faces] array, for a face index [A]. *)
Definition lookup_face (fs : list face) (A : Z) : option face :=
  if decide (0 ≤ A) then fs !! Z.to_nat A else None.

(** An index numpy accepts for an array of length [n]. *)
Definition valid_index (n : nat) (v : Z) : Prop :=
  - Z.of_nat n ≤ v < Z.of_nat n.

#[global] Instance valid_index_dec n v : Decision (valid_index n v).
Proof. unfold valid_index. apply _. Defined.

(** Every vertex index of every face is valid for [pts]. *)
Definition faces_in_range (pts : list point) (fs : list face) : Prop :=
  ∀ f v, f ∈ fs → v ∈ face_list f → valid_index (length pts) v.

(** [u[v]] where it is defined. *)
Definition np_get (u : list Q) (v : Z) : Q :=
  match np_index u v with
  | Ok x => x
  | Raise _ => 0%Q
  end.

(** Area-weighted sum of a face-valued field. *)
Definition face_valued_total (m : Mesh) (u : list Q) : Q :=
  py_sum (zip_with Qmult (areas m) u).

(** Each face contributes its area times the mean of its three vertex
    values. *)
Definition vertex_valued_total (m : Mesh) (u : list Q) : Q :=
  py_sum (zip_with (λ a f, a * np_mean (np_get u <$> face_list f))%Q
            (areas m) (faces m)).

(** The number of pairs of positions at which two faces hold the same vertex
    index. *)
Definition match_count (f g : face) : nat :=
  sum_list ((λ v, py_count (face_list g) v) <$> face_list f).

(** ** Concrete inputs *)

(** The unit square cut along a diagonal. *)
Definition square_points : list point :=
  [(0, 0); (1, 0); (1, 1); (0, 1)]%Q.
Definition square_faces : list face := [(0, 1, 2); (0, 2, 3)].
Definition square_boundary : list segment := [(0, 1); (1, 2); (2, 3); (3, 0)].

(** Three points on a line, and the face they span. *)
Definition collinear_points : list point := [(0, 0); (1, 0); (2, 0)]%Q.
Definition collinear_faces : list face := [(0, 1, 2)].
Definition collinear_boundary : list segment := [(0, 1); (1, 2); (2, 0)].

(** Two faces that name vertex [0] once each, the first one naming it
    twice. *)
Definition repeated_vertex_faces : list face := [(0, 0, 1); (0, 2, 3)].

(** A solver with one degree of freedom: every array is a single number, a
    1-by-1 matrix or a vector of length 1, kept as a canonical rational. *)
Definition scalar_add (a b : Qc) : outcome Qc := Ok (a + b)%Qc.
Definition scalar_scale (a : Qc) (s : Q) : Qc := (a * Q2Qc s)%Qc.
Definition scalar_matmul (a b : Qc) : outcome Qc := Ok (a * b)%Qc.
Definition scalar_solve (A y : Qc) : outcome Qc :=
  if decide (A = Q2Qc 0) then Raise LinAlgError else Ok (y / A)%Qc.
Definition scalar_assemble (pts fcs : Qc) (k : unit) (f : field_fn)
  : outcome Qc := Ok (Q2Qc (f (0, 0)%Q)).
Definition scalar_mean (pts fcs u : Qc) : outcome Q := Ok (this u).

Definition scalar_solver : HeatSolver :=
  {| hs_points := 0; hs_faces := 1; hs_boundary := 2; hs_M := 3; hs_K := 4;
     dt := 1 # 10; num_iterations := 2 |}.

(** The store holds the five arrays of the solver and, at address [5], the
    initial field. *)
Definition scalar_world : world Qc :=
  {| heap := [Q2Qc 0; Q2Qc 0; Q2Qc 0; Q2Qc 1; Q2Qc 1; Q2Qc 5];
     result := None; stdout := [] |}.

(** A Robin condition with constant coefficients. *)
Definition scalar_robin : field_fn * field_fn * field_fn :=
  (λ _, 2%Q, λ _, 3%Q, λ _, 1%Q).

(** [solve] on the one-degree-of-freedom solver. *)
Definition scalar_solve_call (robin_bc : option (field_fn * field_fn * field_fn))
  : outcome HeatSolverResult * world Qc :=
  solve Qc scalar_add scalar_scale scalar_matmul scalar_solve unit tt tt tt
    scalar_assemble scalar_assemble scalar_mean
    scalar_solver 5%nat robin_bc None scalar_world.

(** ** Further methods of [Mesh] *)

(** [u.reshape(-1, 2)]: the entries of [u] taken two by two; an odd number of
    entries cannot be reshaped. *)
Fixpoint reshape2 (u : list Q) : outcome (list point) :=
  match u with
  | [] => Ok []
  | [_] => Raise ValueError
  | x :: y :: u' => rows ← reshape2 u' ; Ok ((x, y) :: rows)
  end.

(** Sum of two points. *)
Definition point_add (p d : point) : point := (p.1 + d.1, p.2 + d.2)%Q.

(** [points + d] for an array [points] of [N] rows and an array [d] of [M]
    rows of two entries, with numpy's broadcasting along the first axis: the
    shapes fit when [N = M], when [N = 1] or when [M = 1]. An empty [points]
    is the array built from the empty list, of shape [(0,)], which fits no
    array of rows of two. *)
Definition np_add_rows (pts d : list point) : outcome (list point) :=
  match pts, d with
  | [], _ => Raise ValueError
  | [p], _ => Ok (point_add p <$> d)
  | _, [q] => Ok ((λ p, point_add p q) <$> pts)
  | _, _ =>
      if decide (length pts = length d) then Ok (zip_with point_add pts d)
      else Raise ValueError
  end.

(** The rectangle test of [get_boundary_idxs_in_rect]:
    [x_min <= x <= x_max and y_min <= y <= y_max]. *)
Definition in_rect (rect : Q * Q * Q * Q) (p : point) : bool :=
  let '(x_min, y_min, x_max, y_max) := rect in
  Qle_bool x_min p.1 && Qle_bool p.1 x_max &&
  Qle_bool y_min p.2 && Qle_bool p.2 y_max.

(** The test of [get_edges_in_idxs] that skips an edge:
    [(x1 - x2) != 0 and (y1 - y2) != 0]. *)
Definition is_diagonal (p1 p2 : point) : bool :=
  negb (Qeq_bool (p1.1 - p2.1) 0) && negb (Qeq_bool (p1.2 - p2.2) 0).

(** The loop of [get_edges_in_idxs] over [self.edges]. *)
Fixpoint edges_in_idxs_loop (pts : list point) (vertices_idxs : list Z)
    (exclude_corners : bool) (es : list segment) : outcome (list segment) :=
  match es with
  | [] => Ok []
  | edge :: es' =>
      if decide (edge.1 ∈ vertices_idxs ∧ edge.2 ∈ vertices_idxs) then
        if exclude_corners then
          p1 ← np_index pts edge.1 ;
          p2 ← np_index pts edge.2 ;
          if is_diagonal p1 p2
          then edges_in_idxs_loop pts vertices_idxs exclude_corners es'
          else in_edges ← edges_in_idxs_loop pts vertices_idxs exclude_corners es' ;
               Ok (edge :: in_edges)
        else in_edges ← edges_in_idxs_loop pts vertices_idxs exclude_corners es' ;
             Ok (edge :: in_edges)
      else edges_in_idxs_loop pts vertices_idxs exclude_corners es'
  end.

(** [Mesh.get_edges_in_idxs] *)
Definition get_edges_in_idxs (self : Mesh) (vertices_idxs : list Z)
    (exclude_corners : bool) : outcome (list segment) :=
  edges_in_idxs_loop (points self) vertices_idxs exclude_corners (edges self).

(** The loop of [get_boundary_idxs_in_rect] over [self.boundary_idxs]. *)
Fixpoint boundary_idxs_in_rect_loop (pts : list point) (rect : Q * Q * Q * Q)
    (idxs : list Z) : outcome (list Z) :=
  match idxs with
  | [] => Ok []
  | idx :: idxs' =>
      p ← np_index pts idx ;
      in_boundary_idxs ← boundary_idxs_in_rect_loop pts rect idxs' ;
      Ok (if in_rect rect p then idx :: in_boundary_idxs else in_boundary_idxs)
  end.

(** [Mesh.get_boundary_idxs_in_rect] *)
Definition get_boundary_idxs_in_rect (self : Mesh) (rect : Q * Q * Q * Q)
  : outcome (list Z) :=
  boundary_idxs_in_rect_loop (points self) rect (boundary_idxs self).

(** [Mesh.calculate_dirichlet_energy]: the computation of the source is
    commented out, the method returns its initial [0]. *)
Definition calculate_dirichlet_energy (self : Mesh) (u : list Q) : Q := 0%Q.

(** [Mesh.calculate_energy]; [dudt**2] squares every entry, and [1/2 * None]
    is a [TypeError]. *)
Definition calculate_energy (self : Mesh) (u dudt : list Q) : outcome Q :=
  let dirichlet_energy := calculate_dirichlet_energy self u in
  total ← calculate_total_value self ((λ x, x * x)%Q <$> dudt) ;
  match total with
  | None => Raise TypeError
  | Some t => Ok (dirichlet_energy + (1 # 2) * t)%Q
  end.

Section MeshMethods.

Variable calculate_triangle_area : list point → Q.

(** [Mesh.get_deformed_mesh] *)
Definition get_deformed_mesh (self : Mesh) (u : list Q) : outcome Mesh :=
  d ← reshape2 u ;
  pts ← np_add_rows (points self) d ;
  Mesh_init calculate_triangle_area pts (faces self) (boundary self).

End MeshMethods.

(** The endpoints of an edge have the same abscissa or the same ordinate. *)
Definition axis_aligned (pts : list point) (e : segment) : Prop :=
  ∃ p1 p2, np_index pts e.1 = Ok p1 ∧ np_index pts e.2 = Ok p2 ∧
           (p1.1 == p2.1 ∨ p1.2 == p2.2)%Q.

(** A point lies in a rectangle given as [(x_min, y_min, x_max, y_max)]. *)
Definition inside_rect (rect : Q * Q * Q * Q) (p : point) : Prop :=
  let '(x_min, y_min, x_max, y_max) := rect in
  (x_min <= p.1 ∧ p.1 <= x_max ∧ y_min <= p.2 ∧ p.2 <= y_max)%Q.

(** A computation that prints nothing. *)
Definition silent {ndarray A} (m : st ndarray A) : Prop :=
  ∀ w, stdout (m w).2 = stdout w.

(** ** EasyMesher *)

(** Outcomes of code that also reads a dictionary: [d[k]] raises [KeyError]
    for a missing key. *)
Inductive dict_outcome (A : Type) : Type :=
  | DOk (a : A)
  | DRaise (e : exn)
  | DKeyError.
Arguments DOk {A} a.
Arguments DRaise {A} e.
Arguments DKeyError {A}.

(** [[(center + points[i])/2 for i in face]] with
    [center = np.mean(points[face], axis=0)]: the midpoints between the
    centroid of a face and its three vertices. *)
Definition offcenters (pts : list point) (f : face) : outcome (list point) :=
  corners ← np_take pts f ;
  let center := (np_mean (fst <$> corners), np_mean (snd <$> corners)) in
  Ok ((λ p, ((center.1 + p.1) / 2, (center.2 + p.2) / 2)%Q) <$> corners).



(** [np.unique]: the distinct values, sorted. *)
Definition np_unique (l : list Z) : list Z := merge_sort Z.le (remove_dups l).

(** [{old: new for new, old in enumerate(used_point_idxs)}] *)
Definition build_idx_map (used : list Z) : gmap Z Z :=
  fold_left (λ d '(new, old), <[old := new]> d) (enumerate used) ∅.

(** [[idx_map[idx] for idx in face]]; [None] stands for the [KeyError] of a
    missing key. *)
Definition remap_face (idx_map : gmap Z Z) (f : face) : option face :=
  let '(a, b, c) := f in
  a' ← idx_map !! a ; b' ← idx_map !! b ; c' ← idx_map !! c ; Some (a', b', c').

(** [[[idx_map[idx] for idx in face] for face in faces]] *)
Definition remap_faces (idx_map : gmap Z Z) (fs : list face) : option (list face) :=
  mapM (remap_face idx_map) fs.

(** The step "remove unnecessary points" of [EasyMesher.mesh]: the points
    used by the faces are kept and renumbered, and the faces are rewritten
    with the new numbers. With no face, [np.array(faces)] is an empty array
    of floats, which [points[...]] refuses as an index. *)
Definition compact_points_faces (pts : list point) (fs : list face)
  : dict_outcome (list point * list face) :=
  let used_point_idxs := np_unique (flat_map face_list fs) in
  let idx_map := build_idx_map used_point_idxs in
  match (if decide (fs = []) then Raise IndexError
         else omap (np_index pts) used_point_idxs) with
  | Raise e => DRaise e
  | Ok pts' =>
      match remap_faces idx_map fs with
      | None => DKeyError
      | Some fs' => DOk (pts', fs')
      end
  end.

Section EasyMesherMesh.

Variable calculate_triangle_area : list point → Q.
Variable get_boundary_from_points_faces :
  list point → list face → outcome (list segment).

(** [point_in_polygon] of [utils.helper]. *)
Variable point_in_polygon : point → list point → bool.




End EasyMesherMesh.

(** Every offcenter of a face is in the outline. *)
Definition offcenters_inside (point_in_polygon : point → list point → bool)
    (outline pts : list point) (f : face) : Prop :=
  ∃ ocs, offcenters pts f = Ok ocs ∧
         Forall (λ oc, point_in_polygon oc outline = true) ocs.

#[global] Instance offcenters_inside_dec pip outline pts f :
  Decision (offcenters_inside pip outline pts f).
Proof.
  unfold offcenters_inside. destruct (offcenters pts f) as [ocs|e].
  - destruct (decide (Forall (λ oc, pip oc outline = true) ocs)) as [H|H].
    + left. eauto.
    + right. intros (ocs' & [= <-] & H'). done.
  - right. by intros (ocs' & ? & _).
Defined.

(** ** The metrics over binary64

    [Mesh] and its metrics as the program computes them: [np.array] of
    Python floats has dtype [float64], and every sum, product and quotient
    is rounded to the nearest binary64 number. *)

Module Binary64.

Definition point : Type := float * float.

(** Python's builtin [sum]: left fold starting from the integer [0], which
    the first addition converts to [0.0]. *)
Definition py_sum (l : list float) : float := fold_left PrimFloat.add l 0%float.

Record Mesh : Type := mkMesh {
  points : list point;
  faces : list face;
  boundary : list segment;
  boundary_idxs : list Z;
  areas : list float;
  edges : list segment;
}.

Section MeshInit.

(** [calculate_triangle_area] of [utils.helper]. *)
Variable calculate_triangle_area : list point → float.

(** [Mesh.__init__] *)
Definition Mesh_init (pts : list point) (fs : list face) (bd : list segment)
  : outcome Mesh :=
  let bidx := elements (list_to_set (ravel bd) : gset Z) in
  ars ← omap (λ f, tri ← np_take pts f ; Ok (calculate_triangle_area tri)) fs ;
  Ok {| points := pts; faces := fs; boundary := bd;
        boundary_idxs := bidx; areas := ars;
        edges := _get_all_edges fs |}.

End MeshInit.

(** [float(n)] for a count [n]; exact for every count below [2^53]. *)
Fixpoint float_of_nat (n : nat) : float :=
  match n with
  | O => 0%float
  | S n' => (float_of_nat n' + 1)%float
  end.

(** [np.mean] of a one-dimensional [float64] array of fewer than eight
    entries, which is what [calculate_total_value] applies it to: numpy adds
    the entries from left to right, starting from zero, and divides the sum
    by their number. *)
Definition np_mean (l : list float) : float :=
  (fold_left PrimFloat.add l 0 / float_of_nat (length l))%float.

(** [Mesh.calculate_total_value] *)
Definition calculate_total_value (m : Mesh) (u : list float)
  : outcome (option float) :=
  if decide (length u = length (faces m)) then
    terms ← omap (λ face_idx,
               a ← np_index (areas m) face_idx ;
               x ← np_index u face_idx ;
               Ok (a * x)%float)
             (range (Z.of_nat (length (faces m)))) ;
    Ok (Some (py_sum terms))
  else if decide (length u = length (points m)) then
    terms ← omap (λ face_idx,
               a ← np_index (areas m) face_idx ;
               f ← np_index (faces m) face_idx ;
               vals ← np_take u f ;
               Ok (a * np_mean vals)%float)
             (range (Z.of_nat (length (faces m)))) ;
    Ok (Some (py_sum terms))
  else Ok None.

(** Modelled from the spec: [calculate_triangle_area] of [utils.helper], which
    is not part of the sources at hand; "planar area of a triangle from its
    three vertex coordinates (cross-product/2 formula)", unsigned. *)
Definition triangle_area_spec (tri : list point) : float :=
  match tri with
  | [(xa, ya); (xb, yb); (xc, yc)] =>
      (PrimFloat.abs ((xb - xa) * (yc - ya) - (xc - xa) * (yb - ya)) / 2)%float
  | _ => 0%float
  end.

(** The unit square. *)
Definition square_points : list point :=
  [(0, 0); (1, 0); (1, 1); (0, 1)]%float.

(** The binary64 number written [0.1] in Python, and its successor, printed
    [0.10000000000000002]. *)
Definition one_tenth : float := 0x1.999999999999ap-4%float.
Definition one_tenth_up : float := 0x1.999999999999bp-4%float.

End Binary64.

(** ** More concrete inputs *)

(** A boundary segment of the unit square that names a vertex the mesh does
    not have. *)
Definition dangling_boundary : list segment := [(0, 7)].

(** A displacement of the four vertices of the unit square. *)
Definition square_displacement : list Q :=
  [1; 0; 1; 0; 0; 1 # 2; 0; 1 # 2]%Q.

(** The one-degree-of-freedom solver asked for no time step. *)
Definition idle_solver : HeatSolver :=
  {| hs_points := 0; hs_faces := 1; hs_boundary := 2; hs_M := 3; hs_K := 4;
     dt := 1 # 10; num_iterations := 0 |}.

Definition idle_solve_call : outcome HeatSolverResult * world Qc :=
  solve Qc scalar_add scalar_scale scalar_matmul scalar_solve unit tt tt tt
    scalar_assemble scalar_assemble scalar_mean
    idle_solver 5%nat None None scalar_world.




(** * Properties *)

(** ** Outcomes and comprehensions *)

Lemma omap_Ok_Forall2 {A B} (f : A → outcome B) l l' :
  omap f l = Ok l' ↔ Forall2 (λ x y, f x = Ok y) l l'.
Proof.
  revert l'. induction l as [|x l IH]; intros l'; simpl.
  - split; [intros [= <-]; constructor | by inversion 1].
  - unfold mbind, outcome_bind, mret. split.
    + destruct (f x) as [y|] eqn:Hy; [|done].
      destruct (omap f l) as [ys|] eqn:Hys; [|done].
      intros [= <-]. constructor; [done|]. by apply IH.
    + inversion 1 as [|? y ? ys Hy Hys]; subst. rewrite Hy.
      apply IH in Hys. by rewrite Hys.
Qed.

Lemma omap_Ok_fmap {A B} (f : A → outcome B) (g : A → B) l :
  (∀ x, x ∈ l → f x = Ok (g x)) → omap f l = Ok (g <$> l).
Proof.
  intros H. apply omap_Ok_Forall2. induction l as [|x l IH]; simpl.
  - constructor.
  - constructor; [apply H; left | apply IH; intros; apply H; by right].
Qed.

Lemma omap_Raise {A B} (f : A → outcome B) l x e :
  x ∈ l → (∀ y, y ∈ l → f y = Raise e ∨ ∃ b, f y = Ok b) → f x = Raise e →
  omap f l = Raise e.
Proof.
  induction l as [|y l IH]; [by inversion 1|].
  intros Hx Hall Hfx. simpl. unfold mbind, outcome_bind.
  destruct (Hall y) as [Hy|[b Hy]]; [left | by rewrite Hy | ]. rewrite Hy.
  apply elem_of_cons in Hx as [-> |Hx]; [congruence|].
  rewrite IH; [done | done | | done]. intros; apply Hall; by right.
Qed.

(** ** Edges *)

(** The sorted sides the inner loop of [_get_all_edges] adds for one face. *)
Lemma elem_of_add_face_sides acc f e :
  e ∈ add_face_sides acc f ↔
  e ∈ acc ∨ ∃ s, s ∈ face_sides f ∧ e = sorted_edge s.1 s.2.
Proof.
  destruct f as [[a b] c]. unfold add_face_sides, add_side. simpl.
  rewrite !elem_of_union, !elem_of_singleton. split.
  - intros [[[?| ->]| ->]| ->]; [by left|right..].
    + exists (a, b). split; [set_solver|done].
    + exists (b, c). split; [set_solver|done].
    + exists (c, a). split; [set_solver|done].
  - intros [?|[s [Hs ->]]]; [tauto|].
    repeat (apply elem_of_cons in Hs as [-> |Hs]); [tauto..|by inversion Hs].
Qed.

Lemma elem_of_fold_add_face_sides fs acc e :
  e ∈ fold_left add_face_sides fs acc ↔
  e ∈ acc ∨ ∃ f s, f ∈ fs ∧ s ∈ face_sides f ∧ e = sorted_edge s.1 s.2.
Proof.
  revert acc. induction fs as [|f fs IH]; intros acc; simpl.
  - split; [by left|]. intros [?|(f & s & Hf & _)]; [done|by inversion Hf].
  - rewrite IH, elem_of_add_face_sides. split.
    + intros [[?|(s & ? & ?)]|(g & s & ? & ? & ?)]; [by left|right..].
      * exists f, s. split_and!; [left|done..].
      * exists g, s. split_and!; [by right|done..].
    + intros [?|(g & s & Hg & ? & ?)]; [by left; left|].
      apply elem_of_cons in Hg as [-> |Hg]; [left; right; eauto|right; eauto 6].
Qed.

Lemma elem_of_all_edges_set fs e :
  e ∈ all_edges_set fs ↔
  ∃ f s, f ∈ fs ∧ s ∈ face_sides f ∧ e = sorted_edge s.1 s.2.
Proof.
  unfold all_edges_set. rewrite elem_of_fold_add_face_sides. set_solver.
Qed.

Lemma sorted_edge_le a b : (sorted_edge a b).1 ≤ (sorted_edge a b).2.
Proof. unfold sorted_edge. case_decide; simpl; lia. Qed.

Lemma sorted_edge_same_pair a b : same_pair (sorted_edge a b) (a, b).
Proof. unfold sorted_edge, same_pair. case_decide; simpl; auto. Qed.

Lemma sorted_edge_comm a b : sorted_edge a b = sorted_edge b a.
Proof.
  unfold sorted_edge. repeat case_decide; try done; try lia.
  f_equal; lia.
Qed.

(** Two sorted pairs for the same unordered pair are the same pair. *)
Lemma same_pair_sorted_inj (e1 e2 s : segment) :
  e1.1 ≤ e1.2 → e2.1 ≤ e2.2 → same_pair e1 s → same_pair e2 s → e1 = e2.
Proof.
  destruct e1 as [a1 b1], e2 as [a2 b2], s as [a b]. unfold same_pair. simpl.
  intros ? ? [[= -> ->]|[= -> ->]] [[= -> ->]|[= -> ->]]; try done;
    f_equal; lia.
Qed.

(** A sorted side of a face is the sorted pair of two of its vertices taken
    at different positions, a description that does not depend on the order
    of the vertices. *)
Lemma perm3_inv (a b c x y z : Z) :
  [a; b; c] ≡ₚ [x; y; z] →
  (x, y) ∈ [(a, b); (b, a); (b, c); (c, b); (c, a); (a, c)].
Proof.
  intros Hp.
  assert (Hx : x ∈ [a; b; c]) by (rewrite Hp; left).
  repeat (apply elem_of_cons in Hx as [-> |Hx]); [| | |by inversion Hx].
  - apply Permutation_cons_inv in Hp.
    apply Permutation_length_2_inv in Hp as [[= <- <-]|[= <- <-]]; set_solver.
  - assert (Hp' : [b; a; c] ≡ₚ [b; y; z]) by (rewrite <- Hp; apply perm_swap).
    apply Permutation_cons_inv in Hp'.
    apply Permutation_length_2_inv in Hp' as [[= <- <-]|[= <- <-]]; set_solver.
  - assert (Hp' : [c; a; b] ≡ₚ [c; y; z]).
    { rewrite <- Hp. change [a; b; c] with ([a; b] ++ [c]).
      by rewrite (Permutation_app_comm [a; b] [c]). }
    apply Permutation_cons_inv in Hp'.
    apply Permutation_length_2_inv in Hp' as [[= <- <-]|[= <- <-]]; set_solver.
Qed.

Lemma face_side_perm f e :
  (∃ s, s ∈ face_sides f ∧ e = sorted_edge s.1 s.2) ↔
  (∃ x y z, face_list f ≡ₚ [x; y; z] ∧ e = sorted_edge x y).
Proof.
  destruct f as [[a b] c]. simpl. split.
  - intros [s [Hs ->]].
    repeat (apply elem_of_cons in Hs as [-> |Hs]); [| | |by inversion Hs]; simpl.
    + by exists a, b, c.
    + exists b, c, a. split; [|done].
      change [a; b; c] with ([a] ++ [b; c]). apply Permutation_app_comm.
    + exists c, a, b. split; [|done].
      change [a; b; c] with ([a; b] ++ [c]). apply Permutation_app_comm.
  - intros (x & y & z & Hp & ->). apply perm3_inv in Hp.
    repeat (apply elem_of_cons in Hp as [[= -> ->] |Hp]); [..|by inversion Hp].
    + exists (a, b). split; [set_solver|done].
    + exists (a, b). split; [set_solver|apply sorted_edge_comm].
    + exists (b, c). split; [set_solver|done].
    + exists (b, c). split; [set_solver|apply sorted_edge_comm].
    + exists (c, a). split; [set_solver|done].
    + exists (c, a). split; [set_solver|apply sorted_edge_comm].
Qed.

Lemma same_triangle_sides f g e :
  same_triangle f g →
  (∃ s, s ∈ face_sides f ∧ e = sorted_edge s.1 s.2) →
  ∃ s, s ∈ face_sides g ∧ e = sorted_edge s.1 s.2.
Proof.
  unfold same_triangle. rewrite !face_side_perm.
  intros Hp (x & y & z & Hf & ->). exists x, y, z. by rewrite <- Hp.
Qed.

Lemma rearranged_all_edges_set fs fs' :
  rearranged fs fs' → all_edges_set fs' = all_edges_set fs.
Proof.
  intros (fs'' & Hperm & Hall). apply set_eq. intros e.
  rewrite !elem_of_all_edges_set. split.
  - intros (g & s & Hg & Hs).
    apply list_elem_of_lookup in Hg as [i Hi].
    destruct (Forall2_lookup_r _ _ _ _ _ Hall Hi) as (f & Hf & Hfg).
    assert (Hsym : same_triangle g f) by (unfold same_triangle in *; done).
    destruct (same_triangle_sides g f e Hsym) as (s' & ? & ?); [eauto|].
    exists f, s'. split_and!; [|done..].
    rewrite Hperm. by eapply list_elem_of_lookup_2.
  - intros (f & s & Hf & Hs). rewrite Hperm in Hf.
    apply list_elem_of_lookup in Hf as [i Hi].
    destruct (Forall2_lookup_l _ _ _ _ _ Hall Hi) as (g & Hg & Hfg).
    destruct (same_triangle_sides f g e Hfg) as (s' & ? & ?); [eauto|].
    exists g, s'. split_and!; [|done..]. by eapply list_elem_of_lookup_2.
Qed.

Lemma Mesh_init_fields area pts fs bd m :
  Mesh_init area pts fs bd = Ok m →
  points m = pts ∧ faces m = fs ∧ boundary m = bd ∧
  edges m = _get_all_edges fs ∧
  Forall2 (λ f a, ∃ tri, np_take pts f = Ok tri ∧ a = area tri) fs (areas m).
Proof.
  unfold Mesh_init, mbind, outcome_bind.
  destruct (omap _ fs) as [ars|] eqn:Hars; [|done].
  intros [= <-]. simpl. split_and!; try done.
  apply omap_Ok_Forall2 in Hars. eapply Forall2_impl; [exact Hars|].
  simpl. intros f a. unfold mbind, outcome_bind.
  destruct (np_take pts f) as [tri|]; [|done]. intros [= <-]. eauto.
Qed.

(** C4. For every mesh, [edges] holds each unordered vertex pair at most
    once, each stored with its smaller index first; every side of every face
    is in [edges] and every entry of [edges] is a side of some face; and the
    set of pairs does not change when the faces are listed in another order
    or the vertices of a face are listed in another order. *)
Theorem edges_of_mesh area pts fs bd m :
  Mesh_init area pts fs bd = Ok m →
  (∀ s, length (filter (λ e, same_pair e s) (edges m)) ≤ 1)%nat ∧
  (∀ e, e ∈ edges m → e.1 ≤ e.2) ∧
  (∀ f s, f ∈ faces m → s ∈ face_sides f →
     ∃ e, e ∈ edges m ∧ same_pair e s) ∧
  (∀ e, e ∈ edges m →
     ∃ f s, f ∈ faces m ∧ s ∈ face_sides f ∧ same_pair e s) ∧
  (∀ fs' m', rearranged fs fs' → Mesh_init area pts fs' bd = Ok m' →
     list_to_set (edges m') =@{gset segment} list_to_set (edges m)).
Proof.
  intros Hm. destruct (Mesh_init_fields _ _ _ _ _ Hm) as (_ & Hf & _ & He & _).
  rewrite He, Hf. unfold _get_all_edges.
  assert (Hle : ∀ e, e ∈ elements (all_edges_set fs) → e.1 ≤ e.2).
  { intros e. rewrite elem_of_elements, elem_of_all_edges_set.
    intros (f & s & _ & _ & ->). apply sorted_edge_le. }
  split_and!.
  - intros s.
    destruct (filter _ _) as [|e1 [|e2 l]] eqn:Hfil; simpl; [lia..|exfalso].
    assert (Hnd : NoDup (e1 :: e2 :: l)).
    { rewrite <- Hfil. apply NoDup_filter, NoDup_elements. }
    assert (H1 : e1 ∈ filter (λ e, same_pair e s) (elements (all_edges_set fs)))
      by (rewrite Hfil; left).
    assert (H2 : e2 ∈ filter (λ e, same_pair e s) (elements (all_edges_set fs)))
      by (rewrite Hfil; right; left).
    apply list_elem_of_filter in H1 as [Hs1 H1], H2 as [Hs2 H2].
    assert (e1 = e2) by (eapply same_pair_sorted_inj; eauto).
    subst. apply NoDup_cons in Hnd as [Hnd _]. apply Hnd. left.
  - done.
  - intros f s Hfin Hs. exists (sorted_edge s.1 s.2). split.
    + rewrite elem_of_elements, elem_of_all_edges_set. eauto.
    + destruct s. apply sorted_edge_same_pair.
  - intros e. rewrite elem_of_elements, elem_of_all_edges_set.
    intros (f & s & ? & ? & ->). exists f, s. split_and!; [done..|].
    destruct s. apply sorted_edge_same_pair.
  - intros fs' m' Hr Hm'.
    destruct (Mesh_init_fields _ _ _ _ _ Hm') as (_ & _ & _ & He' & _).
    rewrite He'. unfold _get_all_edges.
    rewrite !list_to_set_elements_L. by apply rearranged_all_edges_set.
Qed.

(** ** Face adjacency *)

Lemma py_count_nil x : py_count [] x = 0%nat.
Proof. done. Qed.

Lemma py_count_cons y l x :
  py_count (y :: l) x = ((if decide (y = x) then 1 else 0) + py_count l x)%nat.
Proof. unfold py_count. rewrite filter_cons. by case_decide. Qed.

Lemma py_count_app l1 l2 x :
  py_count (l1 ++ l2) x = (py_count l1 x + py_count l2 x)%nat.
Proof. unfold py_count. by rewrite filter_app, length_app. Qed.

Lemma py_count_pos l x : x ∈ l ↔ (0 < py_count l x)%nat.
Proof.
  induction l as [|y l IH]; [rewrite py_count_nil; split; [by inversion 1|lia]|].
  rewrite py_count_cons, elem_of_cons, IH.
  case_decide; split; try lia; auto.
  all: try (intros [?|?]; [congruence|lia]).
Qed.

Lemma py_count_NoDup l x :
  NoDup l → py_count l x = if decide (x ∈ l) then 1%nat else 0%nat.
Proof.
  induction 1 as [|y l Hy Hnd IH]; [by rewrite py_count_nil|].
  rewrite py_count_cons, IH. repeat case_decide; set_solver.
Qed.

Lemma elem_of_keep_twice l x :
  x ∈ keep_twice l ↔ py_count l x = 2%nat.
Proof.
  unfold keep_twice. rewrite list_elem_of_filter. split; [tauto|].
  intros H. split; [done|]. apply py_count_pos. lia.
Qed.

(** Counting a row index in the result of [np.where]: the number of entries
    of that row equal to [v]. *)
Lemma py_count_where_from (fs : list face) k v B :
  py_count
    (flat_map (λ '(idx, f),
       flat_map (λ x, if decide (x = v) then [idx] else []) (face_list f))
       (enumerate_from k fs)) B =
  match (if decide (k ≤ B) then fs !! Z.to_nat (B - k) else None) with
  | Some g => py_count (face_list g) v
  | None => 0%nat
  end.
Proof.
  revert k. induction fs as [|f fs IH]; intros k; simpl.
  - rewrite py_count_nil. by case_decide.
  - rewrite py_count_app, IH.
    assert (Hrow : py_count
              (flat_map (λ x, if decide (x = v) then [k] else []) (face_list f)) B =
            if decide (k = B) then py_count (face_list f) v else 0%nat).
    { destruct f as [[a b] c]. simpl. rewrite !py_count_cons, py_count_nil.
      repeat case_decide; simpl; rewrite ?py_count_cons, ?py_count_nil;
        repeat case_decide; try lia; try congruence. }
    rewrite Hrow. destruct (decide (k = B)) as [->|Hne].
    + rewrite (decide_True (P := B ≤ B)) by lia.
      rewrite (decide_False (P := B + 1 ≤ B)) by lia.
      replace (Z.to_nat (B - B)) with 0%nat by lia. simpl. lia.
    + destruct (decide (k ≤ B)).
      * rewrite (decide_True (P := k + 1 ≤ B)) by lia.
        replace (Z.to_nat (B - k)) with (S (Z.to_nat (B - (k + 1)))) by lia.
        done.
      * rewrite (decide_False (P := k + 1 ≤ B)) by lia. done.
Qed.

Lemma py_count_np_where_rows fs v B :
  py_count (np_where_rows fs v) B =
  match lookup_face fs B with
  | Some g => py_count (face_list g) v
  | None => 0%nat
  end.
Proof.
  unfold np_where_rows, enumerate, lookup_face. rewrite py_count_where_from.
  by replace (B - 0) with B by lia.
Qed.

(** The list of candidates collected for a face by the inner loop. *)
Lemma py_count_candidates fs f B :
  py_count (flat_map (np_where_rows fs) (face_list f)) B =
  match lookup_face fs B with
  | Some g => match_count f g
  | None => 0%nat
  end.
Proof.
  destruct f as [[a b] c]. unfold match_count. simpl.
  rewrite !py_count_app, !py_count_np_where_rows, py_count_nil.
  destruct (lookup_face fs B); lia.
Qed.

Lemma face_neighbors_step_lookup fs fn k f A :
  face_neighbors_step fs fn (k, f) !! A =
  if decide (k = A)
  then (λ old, keep_twice (old ++ flat_map (np_where_rows fs) (face_list f))) <$> fn !! A
  else fn !! A.
Proof.
  destruct f as [[a b] c]. unfold face_neighbors_step. simpl.
  case_decide as Hk.
  - subst. rewrite !lookup_alter_eq. destruct (fn !! A) as [old|]; simpl; [|done].
    by rewrite app_nil_r, <- !app_assoc.
  - by rewrite !lookup_alter_ne.
Qed.

Lemma fold_face_neighbors_lookup fs (l : list face) k fn A :
  fold_left (face_neighbors_step fs) (enumerate_from k l) fn !! A =
  match (if decide (k ≤ A) then l !! Z.to_nat (A - k) else None) with
  | Some f =>
      (λ old, keep_twice (old ++ flat_map (np_where_rows fs) (face_list f))) <$> fn !! A
  | None => fn !! A
  end.
Proof.
  revert k fn. induction l as [|f l IH]; intros k fn; cbn [enumerate_from fold_left].
  - rewrite lookup_nil. by case_decide.
  - rewrite IH, face_neighbors_step_lookup.
    destruct (decide (k = A)) as [->|Hne].
    + rewrite (decide_False (P := A + 1 ≤ A)) by lia.
      rewrite (decide_True (P := A ≤ A)) by lia.
      by replace (Z.to_nat (A - A)) with 0%nat by lia.
    + destruct (decide (k ≤ A)).
      * rewrite (decide_True (P := k + 1 ≤ A)) by lia.
        by replace (Z.to_nat (A - k)) with (S (Z.to_nat (A - (k + 1)))) by lia.
      * by rewrite (decide_False (P := k + 1 ≤ A)) by lia.
Qed.

Lemma elem_of_range n i : i ∈ range n ↔ 0 ≤ i < n.
Proof.
  unfold range. rewrite list_elem_of_fmap. split.
  - intros (k & -> & Hk). apply elem_of_seq in Hk. lia.
  - intros H. exists (Z.to_nat i). split; [lia|]. apply elem_of_seq. lia.
Qed.

Lemma init_face_neighbors_lookup (n : nat) A :
  (list_to_map ((λ face_idx, (face_idx, [])) <$> range (Z.of_nat n))
     : gmap Z (list Z)) !! A =
  if decide (0 ≤ A < Z.of_nat n) then Some [] else None.
Proof.
  case_decide as HA.
  - apply elem_of_list_to_map_1'.
    + intros y. rewrite list_elem_of_fmap. by intros (? & [= _ ->] & _).
    + apply list_elem_of_fmap. exists A. split; [done|]. by apply elem_of_range.
  - apply not_elem_of_list_to_map_1. rewrite <- list_fmap_compose.
    rewrite list_elem_of_fmap. intros (i & -> & Hi). apply elem_of_range in Hi.
    simpl in HA. lia.
Qed.

(** What [calculate_face_neighbors] stores for each face index. *)
Lemma calculate_face_neighbors_lookup m A :
  calculate_face_neighbors m !! A =
  (λ f, keep_twice (flat_map (np_where_rows (faces m)) (face_list f)))
    <$> lookup_face (faces m) A.
Proof.
  unfold calculate_face_neighbors, enumerate, lookup_face.
  rewrite fold_face_neighbors_lookup, init_face_neighbors_lookup.
  replace (A - 0) with A by lia.
  destruct (decide (0 ≤ A)) as [H0|H0].
  - destruct (faces m !! Z.to_nat A) as [f|] eqn:Hf; simpl.
    + apply lookup_lt_Some in Hf. rewrite decide_True by lia. done.
    + apply lookup_ge_None in Hf. rewrite decide_False by lia. done.
  - rewrite decide_False by lia. done.
Qed.

Lemma is_neighbor_match_count m A B :
  is_neighbor m A B ↔
  ∃ fA fB, lookup_face (faces m) A = Some fA ∧
           lookup_face (faces m) B = Some fB ∧ match_count fA fB = 2%nat.
Proof.
  unfold is_neighbor. rewrite calculate_face_neighbors_lookup. split.
  - intros (l & Hl & HB). destruct (lookup_face (faces m) A) as [fA|]; [|done].
    simpl in Hl. injection Hl as <-.
    apply elem_of_keep_twice in HB. rewrite py_count_candidates in HB.
    destruct (lookup_face (faces m) B) as [fB|]; [|done]. eauto.
  - intros (fA & fB & -> & HfB & Hc). simpl. eexists. split; [done|].
    apply elem_of_keep_twice. by rewrite py_count_candidates, HfB.
Qed.

(** Counting matching pairs of positions of two lists. *)
Lemma sum_list_cons_eq (x : nat) l : sum_list (x :: l) = (x + sum_list l)%nat.
Proof. done. Qed.

Lemma sum_count_cons_r (l1 l2 : list Z) y :
  sum_list ((λ v, py_count (y :: l2) v) <$> l1) =
  (py_count l1 y + sum_list ((λ v, py_count l2 v) <$> l1))%nat.
Proof.
  induction l1 as [|x l1 IH]; [done|].
  rewrite !fmap_cons, !sum_list_cons_eq, IH, !py_count_cons.
  repeat case_decide; try congruence; lia.
Qed.

Lemma sum_count_comm (l1 l2 : list Z) :
  sum_list ((λ v, py_count l2 v) <$> l1) = sum_list ((λ v, py_count l1 v) <$> l2).
Proof.
  induction l1 as [|x l1 IH].
  - induction l2 as [|y l2 IH2]; [done|].
    by rewrite fmap_cons, sum_list_cons_eq, <- IH2.
  - by rewrite fmap_cons, sum_list_cons_eq, sum_count_cons_r, IH.
Qed.

Lemma match_count_comm f g : match_count f g = match_count g f.
Proof. unfold match_count. apply sum_count_comm. Qed.

Lemma sum_count_ge (l l' : list Z) :
  l' ⊆ l → (length l' ≤ sum_list ((λ v, py_count l v) <$> l'))%nat.
Proof.
  induction l' as [|x l' IH]; intros Hsub; [simpl; lia|].
  rewrite fmap_cons, sum_list_cons_eq, length_cons.
  assert (0 < py_count l x)%nat by (apply py_count_pos, Hsub; left).
  assert (l' ⊆ l) by (intros y Hy; apply Hsub; by right).
  specialize (IH ltac:(done)). lia.
Qed.

(** A face matches itself at three positions at least. *)
Lemma match_count_self f : (3 ≤ match_count f f)%nat.
Proof.
  unfold match_count. destruct f as [[a b] c].
  by apply (sum_count_ge [a; b; c] [a; b; c]).
Qed.

Lemma sum_count_NoDup (l1 l2 : list Z) :
  NoDup l1 → NoDup l2 →
  sum_list ((λ v, py_count l2 v) <$> l1) =
  size (list_to_set l1 ∩ list_to_set l2 : gset Z).
Proof.
  intros Hnd1 Hnd2. induction Hnd1 as [|x l1 Hx Hnd1 IH].
  - simpl. by rewrite intersection_empty_l_L, size_empty.
  - rewrite fmap_cons, sum_list_cons_eq, list_to_set_cons.
    rewrite IH, py_count_NoDup by done. case_decide as Hin.
    + replace (({[x]} ∪ list_to_set l1) ∩ list_to_set l2 : gset Z)
        with ({[x]} ∪ (list_to_set l1 ∩ list_to_set l2) : gset Z) by set_solver.
      rewrite (size_union (C:=gset Z) {[x]} (list_to_set l1 ∩ list_to_set l2)) by set_solver. by rewrite size_singleton.
    + replace (({[x]} ∪ list_to_set l1) ∩ list_to_set l2 : gset Z)
        with (list_to_set l1 ∩ list_to_set l2 : gset Z) by set_solver.
      done.
Qed.

Lemma match_count_distinct f g :
  distinct_vertices f → distinct_vertices g →
  match_count f g = size (vertex_set f ∩ vertex_set g).
Proof. apply sum_count_NoDup. Qed.

Lemma lookup_face_elem_of fs A f : lookup_face fs A = Some f → f ∈ fs.
Proof.
  unfold lookup_face. case_decide; [|done]. apply list_elem_of_lookup_2.
Qed.

(** C5, as amended. For a mesh whose faces each have three different vertex
    indices, face [B] is listed among the neighbors of face [A] exactly when
    the two faces share exactly two vertices. For every mesh, the relation is
    irreflexive and symmetric. *)
Theorem face_neighbors_relation (m : Mesh) :
  (Forall distinct_vertices (faces m) →
   ∀ A B, is_neighbor m A B ↔
     ∃ fA fB, lookup_face (faces m) A = Some fA ∧
              lookup_face (faces m) B = Some fB ∧ share_exactly_two fA fB) ∧
  (∀ A, ¬ is_neighbor m A A) ∧
  (∀ A B, is_neighbor m A B → is_neighbor m B A).
Proof.
  split_and!.
  - intros Hd A B. rewrite is_neighbor_match_count. unfold share_exactly_two.
    rewrite Forall_forall in Hd.
    split; intros (fA & fB & HA & HB & Hc); exists fA, fB; split_and!; try done.
    + rewrite <- match_count_distinct; eauto using lookup_face_elem_of.
    + rewrite match_count_distinct; eauto using lookup_face_elem_of.
  - intros A. rewrite is_neighbor_match_count.
    intros (fA & fB & HA & HB & Hc). rewrite HA in HB. injection HB as <-.
    pose proof (match_count_self fA). lia.
  - intros A B. rewrite !is_neighbor_match_count.
    intros (fA & fB & HA & HB & Hc). exists fB, fA.
    by rewrite match_count_comm.
Qed.

(** ** Indexing *)

Lemma np_index_valid {A} (a : list A) i :
  valid_index (length a) i → ∃ x, np_index a i = Ok x ∧ x ∈ a.
Proof.
  unfold valid_index, np_index. intros Hv. simpl.
  destruct (decide (0 ≤ i < Z.of_nat (length a))) as [Hi|Hi].
  - destruct (lookup_lt_is_Some_2 a (Z.to_nat i)) as [x Hx]; [lia|].
    rewrite Hx. eauto using list_elem_of_lookup_2.
  - rewrite decide_True by lia.
    destruct (lookup_lt_is_Some_2 a (Z.to_nat (Z.of_nat (length a) + i))) as [x Hx];
      [lia|].
    rewrite Hx. eauto using list_elem_of_lookup_2.
Qed.

Lemma np_index_invalid {A} (a : list A) i :
  ¬ valid_index (length a) i → np_index a i = Raise IndexError.
Proof.
  unfold valid_index, np_index. intros Hv. simpl.
  rewrite decide_False by lia. rewrite decide_False by lia. done.
Qed.

Lemma np_index_nat {A} (a : list A) (i : nat) x :
  a !! i = Some x → np_index a (Z.of_nat i) = Ok x.
Proof.
  intros Hx. pose proof (lookup_lt_Some _ _ _ Hx). unfold np_index. simpl.
  rewrite decide_True by lia. by rewrite Nat2Z.id, Hx.
Qed.

Lemma np_index_replicate {A} n (c : A) i :
  valid_index n i → np_index (replicate n c) i = Ok c.
Proof.
  intros Hv. destruct (np_index_valid (replicate n c) i) as (x & -> & Hx).
  - by rewrite length_replicate.
  - by apply elem_of_replicate in Hx as [-> _].
Qed.

Lemma np_take_valid {A} (a : list A) (f : face) (d : A) :
  Forall (valid_index (length a)) (face_list f) →
  np_take a f =
  Ok ((λ v, match np_index a v with Ok x => x | Raise _ => d end) <$> face_list f).
Proof.
  intros Hv. unfold np_take. apply omap_Ok_fmap. intros v Hin.
  rewrite Forall_forall in Hv.
  by destruct (np_index_valid a v (Hv v Hin)) as (x & -> & _).
Qed.

Lemma np_take_invalid {A} (a : list A) (f : face) :
  ¬ Forall (valid_index (length a)) (face_list f) →
  np_take a f = Raise IndexError.
Proof.
  intros Hv. apply not_Forall_Exists in Hv; [|apply _].
  apply Exists_exists in Hv as (v & Hin & Hbad).
  unfold np_take. eapply omap_Raise; [exact Hin| |by apply np_index_invalid].
  intros y _. destruct (decide (valid_index (length a) y)) as [Hy|Hy].
  - right. destruct (np_index_valid a y Hy) as (x & ? & _). eauto.
  - left. by apply np_index_invalid.
Qed.

Lemma lookup_range n (i : nat) x :
  range n !! i = Some x ↔ x = Z.of_nat i ∧ (Z.of_nat i < n).
Proof.
  unfold range. rewrite list_lookup_fmap. split.
  - destruct (seq 0 (Z.to_nat n) !! i) as [k|] eqn:Hk; [|done].
    simpl. intros [= <-]. apply lookup_seq in Hk as [-> ?]. lia.
  - intros [-> Hlt]. rewrite lookup_seq_lt by lia. done.
Qed.

Lemma length_range n : length (range n) = Z.to_nat n.
Proof. unfold range. by rewrite length_fmap, length_seq. Qed.

(** A comprehension over [range(len(l))] whose body succeeds with the
    entries of [l]. *)
Lemma omap_range_lookup {B} (g : Z → outcome B) (l : list B) :
  (∀ (i : nat) y, l !! i = Some y → g (Z.of_nat i) = Ok y) →
  omap g (range (Z.of_nat (length l))) = Ok l.
Proof.
  intros Hg. apply omap_Ok_Forall2. apply Forall2_same_length_lookup. split.
  - rewrite length_range. lia.
  - intros i x y Hx Hy. apply lookup_range in Hx as [-> _]. by apply Hg.
Qed.

(** ** Construction *)

Lemma faces_in_range_Forall pts fs :
  faces_in_range pts fs ↔
  Forall (λ f, Forall (valid_index (length pts)) (face_list f)) fs.
Proof.
  unfold faces_in_range. rewrite Forall_forall. setoid_rewrite Forall_forall.
  naive_solver.
Qed.

Lemma Mesh_init_in_range area pts fs bd :
  faces_in_range pts fs → ∃ m, Mesh_init area pts fs bd = Ok m.
Proof.
  intros Hr. apply faces_in_range_Forall in Hr. unfold Mesh_init.
  rewrite (omap_Ok_fmap _ (λ f, area ((λ v, match np_index pts v with
                                            | Ok x => x | Raise _ => (0, 0)%Q end)
                                      <$> face_list f))).
  - simpl. eauto.
  - intros f Hf. rewrite Forall_forall in Hr.
    by rewrite (np_take_valid pts f (0, 0)%Q (Hr f Hf)).
Qed.

Lemma Mesh_init_out_of_range area pts fs bd :
  ¬ faces_in_range pts fs → Mesh_init area pts fs bd = Raise IndexError.
Proof.
  rewrite faces_in_range_Forall. intros Hr.
  apply not_Forall_Exists in Hr; [|apply _].
  apply Exists_exists in Hr as (f & Hin & Hbad). unfold Mesh_init.
  rewrite (omap_Raise _ fs f IndexError); [done|done| |].
  - intros g _.
    destruct (decide (Forall (valid_index (length pts)) (face_list g))) as [Hg|Hg].
    + right. rewrite (np_take_valid pts g (0, 0)%Q Hg). simpl. eauto.
    + left. by rewrite (np_take_invalid pts g Hg).
  - by rewrite (np_take_invalid pts f Hbad).
Qed.

Lemma Mesh_init_Ok_in_range area pts fs bd m :
  Mesh_init area pts fs bd = Ok m → faces_in_range pts fs.
Proof.
  intros Hm. destruct (decide (Forall (λ f, Forall (valid_index (length pts))
                                         (face_list f)) fs)) as [H|H].
  - by apply faces_in_range_Forall.
  - rewrite <- faces_in_range_Forall in H.
    by rewrite (Mesh_init_out_of_range area pts fs bd H) in Hm.
Qed.

(** C7, as amended. The constructor checks no area: whenever the vertex
    indices of the faces are valid for [points] it builds the mesh and keeps,
    for every face, the area computed for it, whatever its sign; it raises
    only for an index out of range. *)
Theorem Mesh_init_accepts_any_area area pts fs bd :
  (faces_in_range pts fs →
   ∃ m, Mesh_init area pts fs bd = Ok m ∧
        points m = pts ∧ faces m = fs ∧ boundary m = bd ∧
        Forall2 (λ f a, ∃ tri, np_take pts f = Ok tri ∧ a = area tri)
                fs (areas m)) ∧
  (¬ faces_in_range pts fs → Mesh_init area pts fs bd = Raise IndexError).
Proof.
  split.
  - intros Hr. destruct (Mesh_init_in_range area pts fs bd Hr) as [m Hm].
    exists m. split; [done|].
    destruct (Mesh_init_fields _ _ _ _ _ Hm) as (? & ? & ? & _ & ?). done.
  - apply Mesh_init_out_of_range.
Qed.

(** ** Metrics *)

Lemma Mesh_init_length_areas area pts fs bd m :
  Mesh_init area pts fs bd = Ok m → length (areas m) = length (faces m).
Proof.
  intros Hm. destruct (Mesh_init_fields _ _ _ _ _ Hm) as (_ & -> & _ & _ & H).
  symmetry. by eapply Forall2_length.
Qed.

(** The face-valued branch, on a mesh whose [areas] is aligned with [faces]. *)
Lemma total_value_face_branch m u :
  length (areas m) = length (faces m) → length u = length (faces m) →
  calculate_total_value m u = Ok (Some (face_valued_total m u)).
Proof.
  intros Ha Hu. unfold calculate_total_value, face_valued_total.
  rewrite decide_True by done.
  assert (Hlen : length (zip_with Qmult (areas m) u) = length (faces m)).
  { rewrite length_zip_with. lia. }
  rewrite <- Hlen, omap_range_lookup; [done|].
  intros i y Hy. apply lookup_zip_with_Some in Hy as (a & x & -> & Hai & Hxi).
  by rewrite (np_index_nat _ _ _ Hai), (np_index_nat _ _ _ Hxi).
Qed.

(** The vertex-valued branch. *)
Lemma total_value_vertex_branch m u :
  length (areas m) = length (faces m) →
  faces_in_range (points m) (faces m) →
  length u ≠ length (faces m) → length u = length (points m) →
  calculate_total_value m u = Ok (Some (vertex_valued_total m u)).
Proof.
  intros Ha Hr Hnf Hu. unfold calculate_total_value, vertex_valued_total.
  rewrite decide_False by done. rewrite decide_True by done.
  set (terms := zip_with _ (areas m) (faces m)).
  assert (Hlen : length terms = length (faces m)).
  { unfold terms. rewrite length_zip_with. lia. }
  rewrite <- Hlen, omap_range_lookup; [done|].
  intros i y Hy. apply lookup_zip_with_Some in Hy as (a & f & -> & Hai & Hfi).
  rewrite (np_index_nat _ _ _ Hai), (np_index_nat _ _ _ Hfi). simpl.
  rewrite (np_take_valid u f 0%Q); [done|].
  apply Forall_forall. intros v Hv. rewrite Hu.
  eapply Hr; [|exact Hv]. by eapply list_elem_of_lookup_2.
Qed.

(** C10. [calculate_total_value] looks only at [len(u)]: with
    [len(u) == len(faces)] the field is read as face-valued, also when
    [len(faces) == len(points)]; with [len(u)] different from [len(faces)]
    and equal to [len(points)] it is read as vertex-valued; otherwise the
    result is [None], no exception is raised, and [calculate_mean_value]
    raises a [TypeError] at its division. *)
Theorem total_value_dispatch area pts fs bd m u :
  Mesh_init area pts fs bd = Ok m →
  (length u = length (faces m) →
   calculate_total_value m u = Ok (Some (face_valued_total m u))) ∧
  (length u ≠ length (faces m) → length u = length (points m) →
   calculate_total_value m u = Ok (Some (vertex_valued_total m u))) ∧
  (length u ≠ length (faces m) → length u ≠ length (points m) →
   calculate_total_value m u = Ok None ∧
   calculate_mean_value m u = Raise TypeError).
Proof.
  intros Hm. pose proof (Mesh_init_length_areas _ _ _ _ _ Hm) as Ha.
  pose proof (Mesh_init_Ok_in_range _ _ _ _ _ Hm) as Hr.
  destruct (Mesh_init_fields _ _ _ _ _ Hm) as (Hp & Hf & _).
  split_and!.
  - by apply total_value_face_branch.
  - apply total_value_vertex_branch; [done|by rewrite Hp, Hf].
  - intros Hnf Hnp.
    assert (Hnone : calculate_total_value m u = Ok None).
    { unfold calculate_total_value. by rewrite !decide_False by done. }
    split; [done|]. unfold calculate_mean_value. by rewrite Hnone.
Qed.

(** *** The totals of a constant field, in binary64 *)

Lemma Mesh_init_binary64_inv area pts fs bd m :
  Binary64.Mesh_init area pts fs bd = Ok m →
  Binary64.points m = pts ∧ Binary64.faces m = fs ∧
  length (Binary64.areas m) = length fs ∧
  Forall (λ f, Forall (valid_index (length pts)) (face_list f)) fs.
Proof.
  unfold Binary64.Mesh_init, mbind, outcome_bind.
  destruct (omap _ fs) as [ars|] eqn:Hars; [|done].
  intros [= <-]. simpl. apply omap_Ok_Forall2 in Hars.
  split_and!; [done|done|symmetry; by eapply Forall2_length|].
  apply Forall_forall. intros f Hf.
  apply list_elem_of_lookup in Hf as [i Hi].
  destruct (Forall2_lookup_l _ _ _ _ _ Hars Hi) as (a & _ & Ha).
  destruct (decide (Forall (valid_index (length pts)) (face_list f)))
    as [Hv|Hv]; [done|].
  by rewrite (np_take_invalid pts f Hv) in Ha.
Qed.

(** The face-valued branch. *)
Lemma total_value_binary64_face_branch m u :
  length (Binary64.areas m) = length (Binary64.faces m) →
  length u = length (Binary64.faces m) →
  Binary64.calculate_total_value m u
  = Ok (Some (Binary64.py_sum (zip_with PrimFloat.mul (Binary64.areas m) u))).
Proof.
  intros Ha Hu. unfold Binary64.calculate_total_value.
  rewrite decide_True by done.
  assert (Hlen : length (zip_with PrimFloat.mul (Binary64.areas m) u)
                 = length (Binary64.faces m)).
  { rewrite length_zip_with. lia. }
  rewrite <- Hlen, omap_range_lookup; [done|].
  intros i y Hy. apply lookup_zip_with_Some in Hy as (a & x & -> & Hai & Hxi).
  by rewrite (np_index_nat _ _ _ Hai), (np_index_nat _ _ _ Hxi).
Qed.

(** The vertex-valued branch on a constant field: every face reads the
    constant three times. *)
Lemma total_value_binary64_vertex_branch m (c : float) :
  length (Binary64.areas m) = length (Binary64.faces m) →
  Forall (λ f, Forall (valid_index (length (Binary64.points m))) (face_list f))
    (Binary64.faces m) →
  length (Binary64.points m) ≠ length (Binary64.faces m) →
  Binary64.calculate_total_value m (replicate (length (Binary64.points m)) c)
  = Ok (Some (Binary64.py_sum
                (zip_with PrimFloat.mul (Binary64.areas m)
                   (replicate (length (Binary64.faces m))
                      (Binary64.np_mean [c; c; c]))))).
Proof.
  intros Ha Hr Hne. unfold Binary64.calculate_total_value.
  rewrite decide_False by (by rewrite length_replicate).
  rewrite decide_True by (by rewrite length_replicate).
  set (terms := zip_with PrimFloat.mul _ _).
  assert (Hlen : length terms = length (Binary64.faces m)).
  { unfold terms. rewrite length_zip_with, length_replicate. lia. }
  rewrite <- Hlen, omap_range_lookup; [done|].
  intros i y Hy. apply lookup_zip_with_Some in Hy as (a & x & -> & Hai & Hxi).
  apply lookup_replicate in Hxi as [-> Hi].
  destruct (lookup_lt_is_Some_2 (Binary64.faces m) i Hi) as [f Hf].
  rewrite (np_index_nat _ _ _ Hai), (np_index_nat _ _ _ Hf). simpl.
  rewrite Forall_forall in Hr.
  pose proof (Hr f (list_elem_of_lookup_2 _ _ _ Hf)) as Hv.
  rewrite Forall_forall in Hv.
  destruct f as [[v0 v1] v2]. unfold np_take. simpl.
  rewrite !np_index_replicate by (apply Hv; set_solver). done.
Qed.

(** C6, as amended. In binary64 the vertex-valued total of the constant
    field [c] is the face-valued total of the constant [np.mean([c, c, c])],
    the number [(c + c + c) / 3] rounded three times. The two totals of [c]
    are therefore the same number whenever that mean is [c] itself, and
    whenever the mesh has as many points as faces, in which case both arrays
    are read as face-valued. *)
Theorem total_value_constant_binary64 area pts fs bd m (c : float) :
  Binary64.Mesh_init area pts fs bd = Ok m →
  ∃ tf tv,
    Binary64.calculate_total_value m
      (replicate (length (Binary64.faces m)) c) = Ok (Some tf) ∧
    Binary64.calculate_total_value m
      (replicate (length (Binary64.points m)) c) = Ok (Some tv) ∧
    (length (Binary64.points m) ≠ length (Binary64.faces m) →
     Binary64.calculate_total_value m
       (replicate (length (Binary64.faces m)) (Binary64.np_mean [c; c; c]))
     = Ok (Some tv)) ∧
    (Binary64.np_mean [c; c; c] = c ∨
     length (Binary64.points m) = length (Binary64.faces m) → tf = tv).
Proof.
  intros Hm.
  destruct (Mesh_init_binary64_inv _ _ _ _ _ Hm) as (Hp & Hf & Ha & Hr).
  rewrite <- Hp, <- Hf in Hr. rewrite <- Hf in Ha.
  exists (Binary64.py_sum (zip_with PrimFloat.mul (Binary64.areas m)
                             (replicate (length (Binary64.faces m)) c))).
  destruct (decide (length (Binary64.points m) = length (Binary64.faces m)))
    as [Heq|Hne].
  - exists (Binary64.py_sum (zip_with PrimFloat.mul (Binary64.areas m)
                               (replicate (length (Binary64.faces m)) c))).
    rewrite Heq.
    rewrite total_value_binary64_face_branch by (by rewrite ?length_replicate).
    split_and!; done.
  - exists (Binary64.py_sum
              (zip_with PrimFloat.mul (Binary64.areas m)
                 (replicate (length (Binary64.faces m))
                    (Binary64.np_mean [c; c; c])))).
    rewrite !total_value_binary64_face_branch by (by rewrite ?length_replicate).
    rewrite total_value_binary64_vertex_branch by done.
    split_and!; [done|done| |].
    + intros _. apply total_value_binary64_face_branch; [done|].
      by rewrite length_replicate.
    + intros [-> |Heq]; done.
Qed.

(** ** The rectangular grid *)

Lemma length_flat_map_const {A B} (f : A → list B) (l : list A) (n : nat) :
  (∀ y, y ∈ l → length (f y) = n) →
  length (flat_map f l) = (length l * n)%nat.
Proof.
  induction l as [|y l IH]; intros Hn; simpl; [done|].
  rewrite length_app, IH, Hn; [done|left|]. intros; apply Hn; by right.
Qed.

Lemma lookup_flat_map_const {A B} (f : A → list B) (l : list A) (n j i : nat) x :
  (∀ y, y ∈ l → length (f y) = n) → l !! j = Some x → (i < n)%nat →
  flat_map f l !! (j * n + i)%nat = f x !! i.
Proof.
  revert j. induction l as [|y l IH]; intros j Hn Hj Hi; [done|].
  assert (Hy : length (f y) = n) by (apply Hn; left).
  assert (Hl : ∀ z, z ∈ l → length (f z) = n) by (intros; apply Hn; by right).
  simpl. destruct j as [|j]; simpl in *.
  - injection Hj as ->. rewrite lookup_app_l by lia. done.
  - rewrite lookup_app_r by lia. rewrite Hy.
    replace (n + j * n + i - n)%nat with (j * n + i)%nat by lia. by apply IH.
Qed.

Lemma elem_of_flat_map {A B} (f : A → list B) (l : list A) (b : B) :
  b ∈ flat_map f l ↔ ∃ a, a ∈ l ∧ b ∈ f a.
Proof.
  rewrite list_elem_of_In, in_flat_map. setoid_rewrite list_elem_of_In. done.
Qed.

Lemma linspace_Ok start stop num :
  0 ≤ num →
  ∃ xs, linspace start stop num = Ok xs ∧ length xs = Z.to_nat num.
Proof.
  intros Hn. unfold linspace. rewrite decide_False by lia.
  eexists. split; [done|].
  case_decide; rewrite ?length_insert; by rewrite length_fmap, length_range.
Qed.

Lemma linspace_negative start stop num :
  num < 0 → linspace start stop num = Raise ValueError.
Proof. intros Hn. unfold linspace. by rewrite decide_True by lia. Qed.

Lemma length_grid_points (xr yr : list Q) :
  length (grid_points xr yr) = (length yr * length xr)%nat.
Proof.
  unfold grid_points. apply length_flat_map_const.
  intros y _. by rewrite length_fmap.
Qed.

Lemma lookup_grid_points (xr yr : list Q) (i j : nat) x y :
  xr !! i = Some x → yr !! j = Some y →
  grid_points xr yr !! (j * length xr + i)%nat = Some (x, y).
Proof.
  intros Hx Hy. unfold grid_points.
  rewrite (lookup_flat_map_const _ yr (length xr) j i y); [| |done|].
  - by rewrite list_lookup_fmap, Hx.
  - intros ? _. by rewrite length_fmap.
  - by eapply lookup_lt_Some.
Qed.

Lemma length_grid_faces nx ny :
  length (grid_faces nx ny) =
  (Z.to_nat (nx - 1) * (Z.to_nat (ny - 1) * 2))%nat.
Proof.
  unfold grid_faces.
  rewrite (length_flat_map_const _ _ (Z.to_nat (ny - 1) * 2)), length_range; [done|].
  intros i _. rewrite (length_flat_map_const _ _ 2), length_range; done.
Qed.

Lemma elem_of_grid_faces nx ny f :
  f ∈ grid_faces nx ny ↔
  ∃ i j, 0 ≤ i < nx - 1 ∧ 0 ≤ j < ny - 1 ∧ f ∈ cell_faces nx i j.
Proof.
  unfold grid_faces. rewrite elem_of_flat_map. split.
  - intros (i & Hi & Hf). apply elem_of_flat_map in Hf as (j & Hj & Hf).
    apply elem_of_range in Hi, Hj. eauto.
  - intros (i & j & Hi & Hj & Hf). exists i. split; [by apply elem_of_range|].
    apply elem_of_flat_map. exists j. split; [by apply elem_of_range|done].
Qed.

(** Every vertex index of the grid triangulation is the index of a grid
    point. *)
Lemma grid_faces_in_range nx ny (pts : list point) :
  Z.of_nat (length pts) = nx * ny →
  faces_in_range pts (grid_faces nx ny).
Proof.
  intros Hlen f v Hf Hv. apply elem_of_grid_faces in Hf as (i & j & Hi & Hj & Hf).
  unfold valid_index. rewrite Hlen. unfold cell_faces, get_index in Hf.
  repeat (apply elem_of_cons in Hf as [-> |Hf]); [| |by inversion Hf];
    simpl in Hv;
    repeat (apply elem_of_cons in Hv as [-> |Hv]); try (by inversion Hv); nia.
Qed.

(** C3. For a resolution [(nx, ny)] with [nx >= 2] and [ny >= 2], [mesh()]
    lays out the [nx * ny] points of the grid of the two [linspace] ranges,
    point [(x_i, y_j)] at index [j * nx + i], and [2 * (nx-1) * (ny-1)]
    faces: for every grid cell [(i, j)] the two triangles on either side of
    the diagonal from the point [(x_i, y_j)] to the point
    [(x_(i+1), y_(j+1))], one with the corner [(x_(i+1), y_j)] and one with
    the corner [(x_i, y_(j+1))], and no other face. It returns this mesh as
    soon as the boundary helper returns. *)
Theorem RectMesher_mesh_grid area get_boundary x0 y0 x1 y1 nx ny :
  2 ≤ nx → 2 ≤ ny →
  ∃ x_range y_range,
    linspace x0 x1 nx = Ok x_range ∧ linspace y0 y1 ny = Ok y_range ∧
    Z.of_nat (length x_range) = nx ∧ Z.of_nat (length y_range) = ny ∧
    ∀ bd, get_boundary (grid_points x_range y_range) (grid_faces nx ny) = Ok bd →
      ∃ m, RectMesher_mesh area get_boundary
             {| corners := ((x0, y0), (x1, y1)); resolution := (nx, ny) |} = Ok m ∧
        Z.of_nat (length (points m)) = nx * ny ∧
        (∀ (i j : nat) x y, x_range !! i = Some x → y_range !! j = Some y →
           points m !! Z.to_nat (Z.of_nat j * nx + Z.of_nat i) = Some (x, y)) ∧
        Z.of_nat (length (faces m)) = 2 * (nx - 1) * (ny - 1) ∧
        (∀ f, f ∈ faces m ↔
           ∃ i j, 0 ≤ i < nx - 1 ∧ 0 ≤ j < ny - 1 ∧
             (f = (j * nx + i, j * nx + (i + 1), (j + 1) * nx + (i + 1)) ∨
              f = (j * nx + i, (j + 1) * nx + (i + 1), (j + 1) * nx + i))).
Proof.
  intros Hnx Hny.
  destruct (linspace_Ok x0 x1 nx) as (xr & Hxr & Hlx); [lia|].
  destruct (linspace_Ok y0 y1 ny) as (yr & Hyr & Hly); [lia|].
  exists xr, yr. split_and!; [done|done|lia|lia|].
  intros bd Hbd.
  assert (Hlen : Z.of_nat (length (grid_points xr yr)) = nx * ny).
  { rewrite length_grid_points. nia. }
  destruct (Mesh_init_in_range area (grid_points xr yr) (grid_faces nx ny) bd)
    as [m Hm]; [by apply grid_faces_in_range|].
  exists m. split.
  { unfold RectMesher_mesh. simpl. rewrite Hxr, Hyr. simpl. by rewrite Hbd. }
  destruct (Mesh_init_fields _ _ _ _ _ Hm) as (-> & -> & _).
  split_and!.
  - done.
  - intros i j x y Hx Hy.
    replace (Z.to_nat (Z.of_nat j * nx + Z.of_nat i))
      with (j * length xr + i)%nat by nia.
    by apply lookup_grid_points.
  - rewrite length_grid_faces. nia.
  - intros f. rewrite elem_of_grid_faces. unfold cell_faces, get_index.
    split; intros (i & j & Hi & Hj & Hf); exists i, j;
      (split; [exact Hi|split; [exact Hj|]]).
    + repeat (apply elem_of_cons in Hf as [Hf|Hf]); [by left|by right|].
      by inversion Hf.
    + destruct Hf as [-> | ->]; set_solver.
Qed.

(** C8, as amended. [RectMesher] checks no resolution: its constructor
    accepts any, and for [nx, ny >= 0] with [nx < 2] or [ny < 2] [mesh()]
    computes the [nx * ny] grid points and no face, and returns a mesh
    without faces as soon as the boundary helper returns. *)
Theorem RectMesher_accepts_degenerate_resolution area get_boundary
    x0 y0 x1 y1 nx ny :
  0 ≤ nx → 0 ≤ ny → nx < 2 ∨ ny < 2 →
  ∃ self x_range y_range,
    RectMesher_init ((x0, y0), (x1, y1)) (nx, ny) = Ok self ∧
    linspace x0 x1 nx = Ok x_range ∧ linspace y0 y1 ny = Ok y_range ∧
    grid_faces nx ny = [] ∧
    ∀ bd, get_boundary (grid_points x_range y_range) [] = Ok bd →
      ∃ m, RectMesher_mesh area get_boundary self = Ok m ∧
        Z.of_nat (length (points m)) = nx * ny ∧ faces m = [] ∧ areas m = [].
Proof.
  intros Hnx Hny Hdeg.
  destruct (linspace_Ok x0 x1 nx) as (xr & Hxr & Hlx); [lia|].
  destruct (linspace_Ok y0 y1 ny) as (yr & Hyr & Hly); [lia|].
  assert (Hnil : grid_faces nx ny = []).
  { apply length_zero_iff_nil. rewrite length_grid_faces. nia. }
  eexists _, xr, yr. split_and!; [done..|].
  intros bd Hbd. eexists. split.
  { unfold RectMesher_mesh. simpl. rewrite Hxr, Hyr. simpl.
    rewrite Hnil, Hbd. simpl. done. }
  simpl. rewrite length_grid_points. split_and!; [nia|done..].
Qed.

(** ** The heat solver *)

Section HeatSolverProperties.

Context {ndarray : Type}.
Variable nd_add : ndarray → ndarray → outcome ndarray.
Variable nd_scale : ndarray → Q → ndarray.
Variable nd_matmul : ndarray → ndarray → outcome ndarray.
Variable linalg_solve : ndarray → ndarray → outcome ndarray.
Variable kernel : Type.
Variable k_load k_boundary_mass k_boundary_load : kernel.
Variable assemble_vector : ndarray → ndarray → kernel → field_fn → outcome ndarray.
Variable assemble_matrix : ndarray → ndarray → kernel → field_fn → outcome ndarray.
Variable measures_mean_value : ndarray → ndarray → ndarray → outcome Q.

Local Notation iadd' := (iadd ndarray nd_add).
Local Notation report' := (report ndarray measures_mean_value).
Local Notation solve_iteration' :=
  (solve_iteration ndarray nd_add nd_scale nd_matmul linalg_solve measures_mean_value).
Local Notation assemble_system' :=
  (assemble_system ndarray nd_add kernel k_load k_boundary_mass k_boundary_load
     assemble_vector assemble_matrix).
Local Notation solve' :=
  (solve ndarray nd_add nd_scale nd_matmul linalg_solve kernel
     k_load k_boundary_mass k_boundary_load
     assemble_vector assemble_matrix measures_mean_value).
Local Notation effective_system' :=
  (effective_system ndarray nd_add kernel k_load k_boundary_mass k_boundary_load
     assemble_vector assemble_matrix).
Local Notation backward_euler_step' :=
  (backward_euler_step ndarray nd_add nd_scale nd_matmul linalg_solve).
Local Notation recorded' :=
  (recorded ndarray nd_add nd_scale nd_matmul linalg_solve).
Local Notation linalg_solve_sound' :=
  (linalg_solve_sound ndarray nd_matmul linalg_solve).

Implicit Types (w : world ndarray) (l : loc) (v : ndarray).

(** *** Rules for the primitive steps *)

Lemma wp_mono {A} (m : st ndarray A) (Φ Ψ : outcome A → world ndarray → Prop) w :
  wp m Φ w → (∀ o w', Φ o w' → Ψ o w') → wp m Ψ w.
Proof. unfold wp. auto. Qed.

Lemma wp_bind {A B} (m : st ndarray A) (k : A → st ndarray B) Φ w :
  wp m (λ o w', match o with
                | Ok a => wp (k a) Φ w'
                | Raise e => Φ (Raise e) w'
                end) w →
  wp (st_bind m k) Φ w.
Proof. unfold wp, st_bind. by destruct (m w) as [[a|e] w']. Qed.

Lemma wp_ret {A} (a : A) (Φ : outcome A → world ndarray → Prop) w :
  Φ (Ok a) w → wp (st_ret a) Φ w.
Proof. done. Qed.

Lemma wp_lift {A} (o : outcome A) (Φ : outcome A → world ndarray → Prop) w :
  Φ o w → wp (lift o) Φ w.
Proof. done. Qed.

Lemma wp_alloc v (Φ : outcome loc → world ndarray → Prop) w :
  Φ (Ok (length (heap w))) (mkWorld (heap w ++ [v]) (result w) (stdout w)) →
  wp (alloc v) Φ w.
Proof. done. Qed.

Lemma wp_load l (Φ : outcome ndarray → world ndarray → Prop) w :
  match heap w !! l with
  | Some v => Φ (Ok v) w
  | None => Φ (Raise TypeError) w
  end →
  wp (load l) Φ w.
Proof. unfold wp, load. by destruct (heap w !! l). Qed.

Lemma wp_store l v (Φ : outcome unit → world ndarray → Prop) w :
  Φ (Ok ()) (mkWorld (<[l := v]> (heap w)) (result w) (stdout w)) →
  wp (store l v) Φ w.
Proof. done. Qed.

Lemma wp_print ln (Φ : outcome unit → world ndarray → Prop) w :
  Φ (Ok ()) (mkWorld (heap w) (result w) (stdout w ++ [ln])) →
  wp (print ln) Φ w.
Proof. done. Qed.

Lemma wp_set_result r (Φ : outcome unit → world ndarray → Prop) w :
  Φ (Ok ()) (mkWorld (heap w) (Some r) (stdout w)) →
  wp (set_result r) Φ w.
Proof. done. Qed.

(** The loop rule: [I k] holds before the iteration on the element of index
    [k], and after the last one. *)
Lemma wp_for_each {A T} (I : nat → T → world ndarray → Prop)
    (xs : list A) (body : T → A → st ndarray T) (s : T) Φ w :
  I 0%nat s w →
  (∀ k x s w, xs !! k = Some x → I k s w →
     wp (body s x) (λ o w', match o with
                            | Ok s' => I (S k) s' w'
                            | Raise e => Φ (Raise e) w'
                            end) w) →
  (∀ s w, I (length xs) s w → Φ (Ok s) w) →
  wp (for_each xs body s) Φ w.
Proof.
  revert I s w. induction xs as [|x xs IH]; intros I s w H0 Hbody Hend.
  - by apply wp_ret, Hend.
  - simpl. apply wp_bind. eapply wp_mono; [apply (Hbody 0%nat x s w); done|].
    intros [s'|e] w'; [|done]. intros HI.
    apply (IH (λ k, I (S k))); [done| |done].
    intros k y s'' w'' Hy. by apply (Hbody (S k)).
Qed.

(** *** The arrays on the heap *)

Lemma lookup_snoc_new (h : list ndarray) v : (h ++ [v]) !! length h = Some v.
Proof. by apply list_lookup_middle. Qed.

Lemma lookup_snoc_new' {A} (h : list A) (x : A) : (h ++ [x]) !! length h = Some x.
Proof. by apply list_lookup_middle. Qed.

Lemma lookup_snoc_old (h : list ndarray) v l x :
  h !! l = Some x → (h ++ [v]) !! l = Some x.
Proof. apply lookup_app_l_Some. Qed.

Lemma prefix_snoc (h h' : list ndarray) v :
  h `prefix_of` h' → h `prefix_of` h' ++ [v].
Proof. apply prefix_app_r. Qed.

Lemma prefix_insert_fresh (h h' : list ndarray) l v :
  h `prefix_of` h' → (length h ≤ l)%nat → h `prefix_of` <[l := v]> h'.
Proof.
  intros [k ->] Hl. exists (<[(l - length h)%nat := v]> k).
  by rewrite insert_app_r_alt.
Qed.

(** [report] changes nothing but standard output. *)
Lemma report_spec self t u w :
  wp (report' self t u)
     (λ _ w', heap w' = heap w ∧ result w' = result w) w.
Proof.
  unfold report. apply wp_bind, wp_load. destruct (heap w !! _); [|done].
  apply wp_bind, wp_load. destruct (heap w !! _); [|done].
  apply wp_bind, wp_load. destruct (heap w !! _); [|done].
  apply wp_bind, wp_lift. destruct (measures_mean_value _ _ _); [|done].
  by apply wp_print.
Qed.

(** [a += b] overwrites the object [a] with the sum, and nothing else. *)
Lemma iadd_spec a b w :
  wp (iadd' a b)
     (λ o w', result w' = result w ∧
              match o with
              | Ok _ => ∃ av bv v, heap w !! a = Some av ∧ heap w !! b = Some bv ∧
                                   nd_add av bv = Ok v ∧
                                   heap w' = <[a := v]> (heap w)
              | Raise _ => heap w' = heap w
              end) w.
Proof.
  unfold iadd. apply wp_bind, wp_load. destruct (heap w !! a) as [av|] eqn:Ha; [|done].
  apply wp_bind, wp_load. destruct (heap w !! b) as [bv|] eqn:Hb; [|done].
  apply wp_bind, wp_lift. destruct (nd_add av bv) as [v|] eqn:Hv; [|done].
  apply wp_store. simpl. eauto 10.
Qed.

Lemma lookup_live_snoc (h : list ndarray) v l x :
  is_Some (h !! l) → (h ++ [v]) !! l = Some x → h !! l = Some x.
Proof.
  intros [y Hy]. by rewrite (lookup_snoc_old h v l y Hy), Hy.
Qed.

(** The set-up leaves every array that existed before in place, and returns
    references to [K_eff] and [b_eff]. *)
Lemma assemble_system_spec self robin_bc load_function w :
  wp (assemble_system' self robin_bc load_function)
     (λ o w',
        heap w `prefix_of` heap w' ∧ result w' = result w ∧
        (live_solver w self →
         match o with
         | Ok (K_temp, b) =>
             ∃ K_eff b_eff,
               effective_system' w self robin_bc load_function K_eff b_eff ∧
               heap w' !! K_temp = Some K_eff ∧ heap w' !! b = Some b_eff
         | Raise _ => True
         end)) w.
Proof.
  unfold assemble_system.
  apply wp_bind, wp_load. destruct (heap w !! hs_points self) as [pts|] eqn:Hpts; [|done].
  apply wp_bind, wp_load. destruct (heap w !! hs_faces self) as [fcs|] eqn:Hfcs; [|done].
  apply wp_bind, wp_lift.
  destruct (assemble_vector pts fcs k_load _) as [bv|] eqn:Hbv; [|done].
  apply wp_bind, wp_alloc, wp_bind, wp_load. simpl.
  destruct ((heap w ++ [bv]) !! hs_K self) as [Kv|] eqn:HK;
    [|split_and!; [by apply prefix_app_r|done..]].
  apply wp_bind, wp_alloc. simpl.
  set (b := length (heap w)). set (K_temp := length (heap w ++ [bv])).
  assert (HbK : b ≠ K_temp) by (unfold b, K_temp; rewrite length_app; simpl; lia).
  assert (HbK' : (b ≤ K_temp)%nat) by (unfold b, K_temp; rewrite length_app; lia).
  assert (Hpre2 : heap w `prefix_of` (heap w ++ [bv]) ++ [Kv])
    by (by do 2 apply prefix_app_r).
  destruct robin_bc as [[[W g_D] g_N]|].
  - apply wp_bind, wp_bind, wp_load. simpl.
    destruct (((heap w ++ [bv]) ++ [Kv]) !! hs_boundary self) as [bdy|] eqn:Hbdy;
      [|done].
    apply wp_bind, wp_lift.
    destruct (assemble_matrix pts bdy k_boundary_mass W) as [Rv|] eqn:HRv; [|done].
    apply wp_bind, wp_alloc. simpl.
    apply wp_bind, wp_lift.
    destruct (assemble_vector pts bdy k_boundary_load _) as [rv|] eqn:Hrv;
      [|split_and!; [by apply prefix_app_r|done..]].
    apply wp_bind, wp_alloc. simpl.
    set (h4 := (((heap w ++ [bv]) ++ [Kv]) ++ [Rv]) ++ [rv]).
    assert (Hpre4 : heap w `prefix_of` h4) by (by do 4 apply prefix_app_r).
    assert (Hb4 : h4 !! b = Some bv).
    { unfold h4. do 3 apply lookup_snoc_old. apply lookup_snoc_new. }
    assert (HK4 : h4 !! K_temp = Some Kv).
    { unfold h4. do 2 apply lookup_snoc_old. apply lookup_snoc_new. }
    assert (HR4 : h4 !! length ((heap w ++ [bv]) ++ [Kv]) = Some Rv).
    { unfold h4. apply lookup_snoc_old, lookup_snoc_new. }
    assert (Hr4 : h4 !! length (((heap w ++ [bv]) ++ [Kv]) ++ [Rv]) = Some rv).
    { unfold h4. apply lookup_snoc_new. }
    apply wp_bind. eapply wp_mono; [apply iadd_spec|].
    intros [[]|e] w1; simpl.
    2:{ intros [-> ->]. by split_and!. }
    intros (Hres1 & av & Rv' & K_eff & Hav & HRv' & HKeff & Hw1).
    cbn [heap result] in Hres1, Hav, HRv', Hw1. fold h4 in Hav, HRv', Hw1.
    rewrite HK4 in Hav. rewrite HR4 in HRv'.
    injection Hav as <-. injection HRv' as <-.
    assert (Hpre5 : heap w `prefix_of` heap w1).
    { rewrite Hw1. by apply prefix_insert_fresh. }
    eapply wp_mono; [apply iadd_spec|].
    intros [[]|e] w2; simpl.
    2:{ intros [-> ->]. by split_and!. }
    intros (Hres2 & bv' & rv' & b_eff & Hbv' & Hrv' & Hbeff & Hw2).
    rewrite Hw1 in Hbv', Hrv'.
    rewrite list_lookup_insert_ne in Hbv' by done.
    rewrite list_lookup_insert_ne in Hrv'
      by (unfold K_temp; rewrite !length_app; simpl; lia).
    rewrite Hb4 in Hbv'. rewrite Hr4 in Hrv'.
    injection Hbv' as <-. injection Hrv' as <-.
    apply wp_ret. rewrite Hw2, Hres2, Hres1. split_and!.
    + apply prefix_insert_fresh; [done|]. unfold b. lia.
    + done.
    + intros (_ & _ & Hlb & _ & HlK). exists K_eff, b_eff. split_and!.
      * exists pts, fcs, Kv, bv. split_and!; try done.
        { by eapply lookup_live_snoc. }
        exists bdy, Rv, rv. split_and!; try done.
        destruct Hlb as [y Hy].
        rewrite (lookup_snoc_old _ Kv _ y (lookup_snoc_old _ bv _ y Hy)) in Hbdy.
        congruence.
      * rewrite Hw1, list_lookup_insert_ne by done.
        apply list_lookup_insert_eq. by eapply lookup_lt_Some.
      * apply list_lookup_insert_eq. rewrite Hw1, length_insert.
        by eapply lookup_lt_Some.
  - apply wp_bind, wp_ret, wp_ret. simpl. split_and!; [done|done|].
    intros (_ & _ & _ & _ & HlK). exists Kv, bv. split_and!.
    + exists pts, fcs, Kv, bv. split_and!; try done. by eapply lookup_live_snoc.
    + apply lookup_snoc_new.
    + apply lookup_snoc_old, lookup_snoc_new.
Qed.

(** One iteration of the time loop: what it reads, and the sample it
    appends. *)
Lemma solve_iteration_spec self K_temp b vars i w :
  wp (solve_iteration' self K_temp b vars i)
     (λ o w',
        heap w `prefix_of` heap w' ∧ result w' = result w ∧
        match o with
        | Ok vars' =>
            ∃ Mv Kv uv bv lhs Mu rhs x,
              heap w !! hs_M self = Some Mv ∧ heap w !! K_temp = Some Kv ∧
              heap w !! lv_u vars = Some uv ∧ heap w !! b = Some bv ∧
              nd_add Mv (nd_scale Kv (dt self)) = Ok lhs ∧
              nd_matmul Mv uv = Ok Mu ∧
              nd_add Mu (nd_scale bv (dt self)) = Ok rhs ∧
              linalg_solve lhs rhs = Ok x ∧
              heap w' !! lv_u vars' = Some x ∧
              lv_t_values vars' = lv_t_values vars ++ [time_stamp self i] ∧
              lv_u_values vars' = lv_u_values vars ++ [lv_u vars']
        | Raise _ => True
        end) w.
Proof.
  unfold solve_iteration.
  apply wp_bind, wp_load. destruct (heap w !! hs_M self) as [Mv|] eqn:HM; [|done].
  apply wp_bind, wp_load. destruct (heap w !! K_temp) as [Kv|] eqn:HK; [|done].
  apply wp_bind, wp_lift. destruct (nd_add Mv _) as [lhs|] eqn:Hlhs; [|done].
  apply wp_bind, wp_load. destruct (heap w !! lv_u vars) as [uv|] eqn:Hu; [|done].
  apply wp_bind, wp_lift. destruct (nd_matmul Mv uv) as [Mu|] eqn:HMu; [|done].
  apply wp_bind, wp_load. destruct (heap w !! b) as [bv|] eqn:Hb; [|done].
  apply wp_bind, wp_lift. destruct (nd_add Mu _) as [rhs|] eqn:Hrhs; [|done].
  apply wp_bind, wp_lift. destruct (linalg_solve lhs rhs) as [x|] eqn:Hx; [|done].
  apply wp_bind, wp_alloc, wp_bind.
  eapply wp_mono; [apply report_spec|]. simpl.
  intros o w' [Hh Hr]. rewrite Hh, Hr.
  destruct o as [[]|e]; [|by split_and!; [apply prefix_app_r|..]].
  apply wp_ret. simpl. rewrite Hh, Hr. split_and!; [by apply prefix_app_r|done|].
  exists Mv, Kv, uv, bv, lhs, Mu, rhs, x. split_and!; try done.
  apply lookup_snoc_new.
Qed.

Lemma range_succ (k : nat) :
  range (Z.of_nat (S k)) = range (Z.of_nat k) ++ [Z.of_nat k].
Proof.
  unfold range. rewrite !Nat2Z.id, seq_S, fmap_app. done.
Qed.

Lemma range_to_nat n : range (Z.of_nat (Z.to_nat n)) = range n.
Proof. unfold range. by rewrite Nat2Z.id. Qed.

Lemma recorded_step self K_temp b u_initial w1 k vars w :
  recorded' self K_temp b u_initial w1 k vars w →
  wp (solve_iteration' self K_temp b vars (Z.of_nat k))
     (λ o w', match o with
              | Ok vars' => recorded' self K_temp b u_initial w1 (S k) vars' w'
              | Raise _ => heap w1 `prefix_of` heap w' ∧ result w' = result w1
              end) w.
Proof.
  intros (Hpre & Hres & Hlen & Hlast & Hfirst & Ht & Hsteps).
  eapply wp_mono; [apply solve_iteration_spec|].
  intros [vars'|e] w' (Hpre' & Hres' & Hok); [|split; [by etrans|congruence]].
  destruct Hok as (Mv & Kv & uv & bv & lhs & Mu & rhs & x &
                   HM & HK & Hu & Hb & Hlhs & HMu & Hrhs & Hx & Hx' & Ht' & Hu').
  split_and!.
  - by etrans.
  - congruence.
  - rewrite Hu', length_app, Hlen. simpl. lia.
  - rewrite Hu'. rewrite <- Hlen. apply lookup_snoc_new'.
  - rewrite Hu'. by apply lookup_app_l_Some.
  - by rewrite Ht', Ht, range_succ, fmap_app, app_comm_cons.
  - intros Mv' K_eff b_eff HM' HK' Hb' Hsound i Hi.
    destruct (decide (i < k)%nat) as [Hlt|Hge].
    + destruct (Hsteps Mv' K_eff b_eff HM' HK' Hb' Hsound i Hlt)
        as (l & l' & u & u' & Hl & Hl' & Hlu & Hlu' & Hstep).
      exists l, l', u, u'. rewrite Hu'. split_and!.
      * by apply lookup_app_l_Some.
      * by apply lookup_app_l_Some.
      * by eapply prefix_lookup_Some.
      * by eapply prefix_lookup_Some.
      * done.
    + assert (i = k) as -> by lia.
      exists (lv_u vars), (lv_u vars'), uv, x. rewrite Hu'. split_and!.
      * by apply lookup_app_l_Some.
      * rewrite <- Hlen. apply lookup_snoc_new'.
      * by eapply prefix_lookup_Some.
      * done.
      * rewrite (prefix_lookup_Some _ _ _ _ HM' Hpre) in HM.
        rewrite (prefix_lookup_Some _ _ _ _ HK' Hpre) in HK.
        rewrite (prefix_lookup_Some _ _ _ _ Hb' Hpre) in Hb.
        injection HM as <-. injection HK as <-. injection Hb as <-.
        exists lhs, Mu, rhs. split_and!; try done. by apply Hsound.
Qed.

(** What a call to [solve] does, whatever its outcome: the arrays that
    existed before the call are left in place; on success the result is the
    recorded time series. *)
Lemma solve_spec self u_initial robin_bc load_function w :
  wp (solve' self u_initial robin_bc load_function)
     (λ o w',
        heap w `prefix_of` heap w' ∧
        match o with
        | Ok res =>
            result w' = Some res ∧
            length (u_values res) = S (Z.to_nat (num_iterations self)) ∧
            u_values res !! 0%nat = Some u_initial ∧
            t_values res = 0%Q :: (time_stamp self <$> range (num_iterations self)) ∧
            (live_solver w self → linalg_solve_sound' →
             ∃ Mv K_eff b_eff,
               heap w !! hs_M self = Some Mv ∧
               effective_system' w self robin_bc load_function K_eff b_eff ∧
               ∀ i, (i < Z.to_nat (num_iterations self))%nat →
                 ∃ l l' u u',
                   u_values res !! i = Some l ∧ u_values res !! S i = Some l' ∧
                   heap w' !! l = Some u ∧ heap w' !! l' = Some u' ∧
                   backward_euler_step' Mv K_eff b_eff (dt self) u u')
        | Raise _ => True
        end) w.
Proof.
  unfold solve. apply wp_bind, wp_print. apply wp_bind.
  eapply wp_mono; [apply assemble_system_spec|]. cbn [heap result].
  intros [[K_temp b]|e] wa (Hpre_a & Hres_a & Hsys); [|done].
  apply wp_bind. eapply wp_mono; [apply report_spec|].
  intros o w1 [Hh1 Hr1]. rewrite Hh1.
  destruct o as [[]|e]; [|done].
  apply wp_bind.
  apply (wp_for_each (recorded' self K_temp b u_initial w1)).
  - split_and!; try done. intros. lia.
  - intros k x vars wk Hx Hrec. apply lookup_range in Hx as [-> _].
    eapply wp_mono; [by apply recorded_step|].
    intros [vars'|e'] wk'; [done|]. intros [Hp _]. split; [|done].
    etrans; [exact Hpre_a|]. by rewrite <- Hh1.
  - intros vars wN (HpreN & HresN & Hlen & Hlast & Hfirst & Ht & Hsteps).
    rewrite length_range in Hlen, Ht, Hsteps. rewrite range_to_nat in Ht.
    apply wp_bind, wp_set_result, wp_ret. cbn [heap result u_values t_values].
    assert (Hpre : heap w `prefix_of` heap wN).
    { etrans; [exact Hpre_a|]. by rewrite <- Hh1. }
    split_and!; try done.
    intros Hlive Hsound. destruct (Hsys Hlive) as (K_eff & b_eff & Heff & HK & Hb).
    destruct Hlive as (_ & _ & _ & [Mv HM] & _).
    exists Mv, K_eff, b_eff. split_and!; [done|done|].
    apply (Hsteps Mv K_eff b_eff); try done; rewrite Hh1; try done.
    by eapply prefix_lookup_Some.
Qed.

(** C1. After a successful call to [solve], every recorded field
    [u_values[i+1]] is what the linear solver returned for the system
    [(M + dt * K_eff) * u = M * u_values[i] + dt * b_eff], and it satisfies
    that system; [K_eff] is [K] or [K + R] and [b_eff] is [b] or [b + r],
    according to [robin_bc]. *)
Theorem solve_backward_euler self u_initial robin_bc load_function w res w' :
  linalg_solve_sound' → live_solver w self →
  solve ndarray nd_add nd_scale nd_matmul linalg_solve kernel
    k_load k_boundary_mass k_boundary_load
    assemble_vector assemble_matrix measures_mean_value
    self u_initial robin_bc load_function w = (Ok res, w') →
  ∃ Mv K_eff b_eff,
    heap w !! hs_M self = Some Mv ∧
    effective_system' w self robin_bc load_function K_eff b_eff ∧
    ∀ i : nat, Z.of_nat i < num_iterations self →
      ∃ l l' u u',
        u_values res !! i = Some l ∧ u_values res !! S i = Some l' ∧
        heap w' !! l = Some u ∧ heap w' !! l' = Some u' ∧
        backward_euler_step' Mv K_eff b_eff (dt self) u u'.
Proof.
  intros Hsound Hlive Hrun.
  pose proof (solve_spec self u_initial robin_bc load_function w) as Hspec.
  unfold wp in Hspec. rewrite Hrun in Hspec. simpl in Hspec.
  destruct Hspec as (_ & _ & _ & _ & _ & Hsys).
  destruct (Hsys Hlive Hsound) as (Mv & K_eff & b_eff & HM & Heff & Hsteps).
  exists Mv, K_eff, b_eff. split_and!; [done..|].
  intros i Hi. apply Hsteps. lia.
Qed.

(** C2. With [num_iterations = N >= 0], a successful call to [solve] returns
    [N + 1] time stamps and [N + 1] fields, [t_values[k]] is [k * dt] for
    every [k] in [0..N], and [u_values[0]] is the given [u_initial]. *)
Theorem solve_time_series self u_initial robin_bc load_function w res w' :
  0 ≤ num_iterations self →
  solve ndarray nd_add nd_scale nd_matmul linalg_solve kernel
    k_load k_boundary_mass k_boundary_load
    assemble_vector assemble_matrix measures_mean_value
    self u_initial robin_bc load_function w = (Ok res, w') →
  Z.of_nat (length (t_values res)) = num_iterations self + 1 ∧
  Z.of_nat (length (u_values res)) = num_iterations self + 1 ∧
  (∀ k, 0 ≤ k ≤ num_iterations self →
     ∃ t, t_values res !! Z.to_nat k = Some t ∧ (t == inject_Z k * dt self)%Q) ∧
  u_values res !! 0%nat = Some u_initial.
Proof.
  intros HN Hrun.
  pose proof (solve_spec self u_initial robin_bc load_function w) as Hspec.
  unfold wp in Hspec. rewrite Hrun in Hspec. simpl in Hspec.
  destruct Hspec as (_ & _ & Hlen & Hfirst & Ht & _).
  split_and!.
  - rewrite Ht. simpl. rewrite length_fmap, length_range. lia.
  - lia.
  - intros k Hk. rewrite Ht. destruct (decide (k = 0)) as [->|Hk0].
    + exists 0%Q. split; [done|]. ring.
    + exists (time_stamp self (k - 1)). split.
      * replace (Z.to_nat k) with (S (Z.to_nat (k - 1))) by lia. simpl.
        rewrite list_lookup_fmap.
        assert (Hr : range (num_iterations self) !! Z.to_nat (k - 1) = Some (k - 1)).
        { apply lookup_range. lia. }
        by rewrite Hr.
      * unfold time_stamp. replace (k - 1 + 1) with k by lia. ring.
  - done.
Qed.

(** C9. A call to [solve] leaves the arrays [self.M] and [self.K] as they
    were, whether it returns or raises and also with [robin_bc]: the Robin
    matrix is added to the copy [K_temp]. *)
Theorem solve_preserves_M_K self u_initial robin_bc load_function w :
  is_Some (heap w !! hs_M self) → is_Some (heap w !! hs_K self) →
  let w' := (solve ndarray nd_add nd_scale nd_matmul linalg_solve kernel
     k_load k_boundary_mass k_boundary_load
     assemble_vector assemble_matrix measures_mean_value
     self u_initial robin_bc load_function w).2 in
  heap w' !! hs_M self = heap w !! hs_M self ∧
  heap w' !! hs_K self = heap w !! hs_K self.
Proof.
  intros [Mv HM] [Kv HK] w'.
  pose proof (solve_spec self u_initial robin_bc load_function w) as Hspec.
  unfold wp in Hspec. fold w' in Hspec. destruct Hspec as [Hpre _].
  rewrite HM, HK. split; by eapply prefix_lookup_Some.
Qed.

(** *** Further properties of [solve] *)

(** [report] prints one progress line when the mean value is computed, and
    nothing when it raises. *)
Lemma report_trace_spec self t u w :
  wp (report' self t u)
     (λ o w', heap w' = heap w ∧ result w' = result w ∧
              match o with
              | Ok _ => ∃ mean, stdout w' = stdout w ++ [Progress t mean]
              | Raise _ => stdout w' = stdout w
              end) w.
Proof.
  unfold report. apply wp_bind, wp_load. destruct (heap w !! _); [|done].
  apply wp_bind, wp_load. destruct (heap w !! _); [|done].
  apply wp_bind, wp_load. destruct (heap w !! _); [|done].
  apply wp_bind, wp_lift. destruct (measures_mean_value _ _ _) as [mean|]; [|done].
  apply wp_print. simpl. eauto.
Qed.

(** One iteration allocates one array, the new field, appends it and its
    time stamp, and prints one line. *)
Lemma solve_iteration_trace_spec self K_temp b vars i w :
  wp (solve_iteration' self K_temp b vars i)
     (λ o w',
        heap w `prefix_of` heap w' ∧ result w' = result w ∧
        match o with
        | Ok vars' =>
            ∃ x mean,
              heap w' = heap w ++ [x] ∧ lv_u vars' = length (heap w) ∧
              lv_u_values vars' = lv_u_values vars ++ [length (heap w)] ∧
              lv_t_values vars' = lv_t_values vars ++ [time_stamp self i] ∧
              stdout w' = stdout w ++ [Progress (time_stamp self i) mean]
        | Raise _ => True
        end) w.
Proof.
  unfold solve_iteration.
  apply wp_bind, wp_load. destruct (heap w !! hs_M self) as [Mv|]; [|done].
  apply wp_bind, wp_load. destruct (heap w !! K_temp) as [Kv|]; [|done].
  apply wp_bind, wp_lift. destruct (nd_add Mv _) as [lhs|]; [|done].
  apply wp_bind, wp_load. destruct (heap w !! lv_u vars) as [uv|]; [|done].
  apply wp_bind, wp_lift. destruct (nd_matmul Mv uv) as [Mu|]; [|done].
  apply wp_bind, wp_load. destruct (heap w !! b) as [bv|]; [|done].
  apply wp_bind, wp_lift. destruct (nd_add Mu _) as [rhs|]; [|done].
  apply wp_bind, wp_lift. destruct (linalg_solve lhs rhs) as [x|]; [|done].
  apply wp_bind, wp_alloc, wp_bind.
  eapply wp_mono; [apply report_trace_spec|]. cbn [heap result stdout].
  intros o w' (Hh & Hr & Hout). rewrite Hh, Hr.
  destruct o as [[]|e]; [|by split_and!; [apply prefix_app_r|..]].
  destruct Hout as [mean Hout].
  apply wp_ret. rewrite Hh, Hr. split_and!; [by apply prefix_app_r|done|].
  exists x, mean. by split_and!.
Qed.

Lemma wp_conj {A} (m : st ndarray A) (Φ Ψ : outcome A → world ndarray → Prop) w :
  wp m Φ w → wp m Ψ w → wp m (λ o w', Φ o w' ∧ Ψ o w') w.
Proof. unfold wp. auto. Qed.

Lemma silent_wp {A} (m : st ndarray A) w :
  silent m → wp m (λ _ w', stdout w' = stdout w) w.
Proof. unfold silent, wp. auto. Qed.

Lemma silent_bind {A B} (m : st ndarray A) (k : A → st ndarray B) :
  silent m → (∀ a, silent (k a)) → silent (st_bind m k).
Proof.
  unfold silent, st_bind. intros Hm Hk w. specialize (Hm w).
  destruct (m w) as [[a|e] w']; simpl in *; [|done]. by rewrite Hk.
Qed.

Lemma silent_ret {A} (a : A) : silent (st_ret (ndarray := ndarray) a).
Proof. done. Qed.

Lemma silent_lift {A} (o : outcome A) : silent (lift (ndarray := ndarray) o).
Proof. done. Qed.

Lemma silent_alloc v : silent (alloc v).
Proof. done. Qed.

Lemma silent_load l : silent (load (ndarray := ndarray) l).
Proof. intros w. unfold load. by destruct (heap w !! l). Qed.

Lemma silent_store l v : silent (store l v).
Proof. done. Qed.

Lemma silent_iadd a b : silent (iadd' a b).
Proof.
  unfold iadd. repeat (apply silent_bind; [|intros]);
    auto using silent_load, silent_lift, silent_store.
Qed.

(** The set-up of [solve] prints nothing. *)
Lemma silent_assemble_system self robin_bc load_function :
  silent (assemble_system' self robin_bc load_function).
Proof.
  unfold assemble_system.
  repeat (apply silent_bind; [|intros]);
    auto using silent_load, silent_lift, silent_alloc, silent_ret.
  destruct robin_bc as [[[W g_D] g_N]|]; [|apply silent_ret].
  repeat (apply silent_bind; [|intros]);
    auto using silent_load, silent_lift, silent_alloc, silent_store, silent_iadd.
Qed.

(** What a call to [solve] leaves behind: the attribute [result], the lines
    printed, and the objects of the recorded fields. *)
Lemma solve_trace_spec self u_initial robin_bc load_function w :
  wp (solve' self u_initial robin_bc load_function)
     (λ o w',
        match o with
        | Ok res =>
            result w' = Some res ∧
            (∃ means, length means = length (t_values res) ∧
                      stdout w' = stdout w ++ Banner ::
                                    zip_with Progress (t_values res) means) ∧
            (∃ news, u_values res = u_initial :: news ∧ NoDup news ∧
                     ∀ l, l ∈ news →
                          (length (heap w) ≤ l < length (heap w'))%nat)
        | Raise _ => result w' = result w
        end) w.
Proof.
  unfold solve. apply wp_bind, wp_print. apply wp_bind.
  eapply wp_mono;
    [apply wp_conj; [apply assemble_system_spec
                    |apply silent_wp, silent_assemble_system]|].
  cbn [heap result stdout].
  intros [[K_temp b]|e] wa [(Hpre_a & Hres_a & _) Hout_a]; [|done].
  apply wp_bind. eapply wp_mono; [apply report_trace_spec|].
  intros o w1 (Hh1 & Hr1 & Hout1).
  destruct o as [[]|e]; [|congruence].
  destruct Hout1 as [mean0 Hout1].
  apply wp_bind.
  apply (wp_for_each
           (λ (k : nat) vars wk,
              result wk = result w ∧ heap w `prefix_of` heap wk ∧
              ∃ news means,
                lv_u_values vars = u_initial :: news ∧ NoDup news ∧
                (∀ l, l ∈ news → (length (heap w) ≤ l < length (heap wk))%nat) ∧
                length means = length (lv_t_values vars) ∧
                stdout wk = stdout w ++ Banner ::
                              zip_with Progress (lv_t_values vars) means)).
  - split_and!; [congruence|by rewrite Hh1|].
    exists [], [mean0]. cbn [lv_u_values lv_t_values].
    split_and!; [done|apply NoDup_nil_2|by inversion 1|done|].
    rewrite Hout1, Hout_a, <- app_assoc. done.
  - intros k x vars wk _ (Hres & Hpre & news & means & Hu & Hnd & Hfresh & Hlen & Hout).
    eapply wp_mono; [apply solve_iteration_trace_spec|].
    intros [vars'|e'] wk' (Hpre' & Hres' & Hok); [|congruence].
    destruct Hok as (v & mean & Hh' & _ & Hu' & Ht' & Hout').
    pose proof (prefix_length _ _ Hpre) as Hle.
    split_and!; [congruence|by etrans|].
    exists (news ++ [length (heap wk)]), (means ++ [mean]).
    split_and!.
    + by rewrite Hu', Hu.
    + apply NoDup_app. split_and!; [done| |apply NoDup_singleton].
      intros l Hl Hl'. apply list_elem_of_singleton in Hl' as ->.
      apply Hfresh in Hl. lia.
    + intros l Hl. rewrite Hh', length_app. simpl.
      apply elem_of_app in Hl as [Hl|Hl].
      * apply Hfresh in Hl. lia.
      * apply list_elem_of_singleton in Hl as ->. lia.
    + rewrite Ht', !length_app. simpl. lia.
    + rewrite Hout', Hout, Ht', zip_with_app by done.
      rewrite <- app_assoc. done.
  - intros vars wN (Hres & Hpre & news & means & Hu & Hnd & Hfresh & Hlen & Hout).
    apply wp_bind, wp_set_result, wp_ret. cbn [heap result stdout u_values t_values].
    split_and!; [done|by exists means|by exists news].
Qed.

(** X20. [self.result] is assigned only at the end of [solve]: after a call
    that returns it is the returned result, after a call that raises it is
    what it was before the call. *)
Theorem solve_result_attribute self u_initial robin_bc load_function w :
  match solve ndarray nd_add nd_scale nd_matmul linalg_solve kernel
          k_load k_boundary_mass k_boundary_load
          assemble_vector assemble_matrix measures_mean_value
          self u_initial robin_bc load_function w with
  | (Ok res, w') => result w' = Some res
  | (Raise _, w') => result w' = result w
  end.
Proof.
  pose proof (solve_trace_spec self u_initial robin_bc load_function w) as Hspec.
  unfold wp in Hspec. destruct (solve _ _ _ _ _ _ _ _ _ _ _ _ _ _ _ _ w) as [[res|e] w'];
    simpl in Hspec; [by destruct Hspec|done].
Qed.

(** X21. A call to [solve] that returns has printed the banner and then one
    progress line per recorded sample, in order, each with the time stamp of
    its sample. *)
Theorem solve_progress_lines self u_initial robin_bc load_function w res w' :
  solve ndarray nd_add nd_scale nd_matmul linalg_solve kernel
    k_load k_boundary_mass k_boundary_load
    assemble_vector assemble_matrix measures_mean_value
    self u_initial robin_bc load_function w = (Ok res, w') →
  ∃ means,
    length means = length (t_values res) ∧
    stdout w' = stdout w ++ Banner :: zip_with Progress (t_values res) means.
Proof.
  intros Hrun.
  pose proof (solve_trace_spec self u_initial robin_bc load_function w) as Hspec.
  unfold wp in Hspec. rewrite Hrun in Hspec. simpl in Hspec.
  by destruct Hspec as (_ & Hout & _).
Qed.

(** X22. The fields recorded by [solve] after the initial one are new
    objects: none of them existed before the call, they are pairwise
    different, and, when [u_initial] existed before the call, different from
    it. *)
Theorem solve_fresh_fields self u_initial robin_bc load_function w res w' :
  solve ndarray nd_add nd_scale nd_matmul linalg_solve kernel
    k_load k_boundary_mass k_boundary_load
    assemble_vector assemble_matrix measures_mean_value
    self u_initial robin_bc load_function w = (Ok res, w') →
  (∀ (i : nat) l, u_values res !! S i = Some l →
     heap w !! l = None ∧ is_Some (heap w' !! l)) ∧
  (is_Some (heap w !! u_initial) → NoDup (u_values res)).
Proof.
  intros Hrun.
  pose proof (solve_trace_spec self u_initial robin_bc load_function w) as Hspec.
  unfold wp in Hspec. rewrite Hrun in Hspec. simpl in Hspec.
  destruct Hspec as (_ & _ & news & Hu & Hnd & Hfresh). rewrite Hu. split.
  - intros i l Hl. simpl in Hl. apply list_elem_of_lookup_2, Hfresh in Hl.
    split; [apply lookup_ge_None; lia|apply lookup_lt_is_Some; lia].
  - intros Hlive. apply NoDup_cons. split; [|done].
    intros Hin. apply Hfresh in Hin. apply lookup_lt_is_Some in Hlive. lia.
Qed.

(** X23. [solve] modifies no array that existed before the call, whether it
    returns or raises: the initial field, the mesh arrays and the matrices
    all keep their contents. *)
Theorem solve_modifies_no_array self u_initial robin_bc load_function w l v :
  heap w !! l = Some v →
  heap (solve ndarray nd_add nd_scale nd_matmul linalg_solve kernel
          k_load k_boundary_mass k_boundary_load
          assemble_vector assemble_matrix measures_mean_value
          self u_initial robin_bc load_function w).2 !! l = Some v.
Proof.
  intros Hl.
  pose proof (solve_spec self u_initial robin_bc load_function w) as Hspec.
  unfold wp in Hspec. destruct Hspec as [Hpre _].
  by eapply prefix_lookup_Some.
Qed.

(** X24. With [num_iterations <= 0] the time loop does not run: a call that
    returns gives the single sample [(0, u_initial)]. *)
Theorem solve_no_iteration self u_initial robin_bc load_function w res w' :
  num_iterations self ≤ 0 →
  solve ndarray nd_add nd_scale nd_matmul linalg_solve kernel
    k_load k_boundary_mass k_boundary_load
    assemble_vector assemble_matrix measures_mean_value
    self u_initial robin_bc load_function w = (Ok res, w') →
  t_values res = [0%Q] ∧ u_values res = [u_initial].
Proof.
  intros HN Hrun.
  pose proof (solve_spec self u_initial robin_bc load_function w) as Hspec.
  unfold wp in Hspec. rewrite Hrun in Hspec. simpl in Hspec.
  destruct Hspec as (_ & _ & Hlen & Hfirst & Ht & _).
  assert (Hr : range (num_iterations self) = []).
  { unfold range. by replace (Z.to_nat (num_iterations self)) with 0%nat by lia. }
  rewrite Hr in Ht. split; [done|].
  replace (Z.to_nat (num_iterations self)) with 0%nat in Hlen by lia.
  destruct (u_values res) as [|l [|l' ls]]; simpl in *; try lia.
  by injection Hfirst as ->.
Qed.

End HeatSolverProperties.

(** ** Concrete runs *)

Lemma scalar_solve_sound : linalg_solve_sound Qc scalar_matmul scalar_solve.
Proof.
  intros A y x. unfold scalar_solve, scalar_matmul.
  case_decide; [done|]. intros [= <-]. f_equal. by apply Qcmult_div_r.
Qed.

Lemma scalar_solver_live : live_solver scalar_world scalar_solver.
Proof. repeat split; eexists; reflexivity. Qed.

(** The one-degree-of-freedom solver with a Robin condition: both recorded
    steps solve the backward-Euler system. *)
Lemma solve_backward_euler_witness :
  linalg_solve_sound Qc scalar_matmul scalar_solve ∧
  live_solver scalar_world scalar_solver ∧
  ∃ res w',
    scalar_solve_call (Some scalar_robin) = (Ok res, w') ∧
    ∃ Mv K_eff b_eff,
      heap scalar_world !! hs_M scalar_solver = Some Mv ∧
      effective_system Qc scalar_add unit tt tt tt scalar_assemble scalar_assemble
        scalar_world scalar_solver (Some scalar_robin) None K_eff b_eff ∧
      ∀ i : nat, Z.of_nat i < num_iterations scalar_solver →
        ∃ l l' u u',
          u_values res !! i = Some l ∧ u_values res !! S i = Some l' ∧
          heap w' !! l = Some u ∧ heap w' !! l' = Some u' ∧
          backward_euler_step Qc scalar_add scalar_scale scalar_matmul scalar_solve
            Mv K_eff b_eff (dt scalar_solver) u u'.
Proof.
  split; [exact scalar_solve_sound|]. split; [exact scalar_solver_live|].
  eexists _, _. split; [vm_compute; reflexivity|].
  eapply (solve_backward_euler scalar_add scalar_scale scalar_matmul scalar_solve
            unit tt tt tt scalar_assemble scalar_assemble scalar_mean
            scalar_solver 5%nat (Some scalar_robin) None scalar_world).
  - exact scalar_solve_sound.
  - exact scalar_solver_live.
  - vm_compute. reflexivity.
Defined.

(** The same solver without a Robin condition: three time stamps, three
    fields. *)
Lemma solve_time_series_witness :
  0 ≤ num_iterations scalar_solver ∧
  ∃ res w',
    scalar_solve_call None = (Ok res, w') ∧
    Z.of_nat (length (t_values res)) = num_iterations scalar_solver + 1 ∧
    Z.of_nat (length (u_values res)) = num_iterations scalar_solver + 1 ∧
    (∀ k, 0 ≤ k ≤ num_iterations scalar_solver →
       ∃ t, t_values res !! Z.to_nat k = Some t ∧
            (t == inject_Z k * dt scalar_solver)%Q) ∧
    u_values res !! 0%nat = Some 5%nat.
Proof.
  split; [simpl; lia|].
  eexists _, _. split; [vm_compute; reflexivity|].
  eapply (solve_time_series scalar_add scalar_scale scalar_matmul scalar_solve
            unit tt tt tt scalar_assemble scalar_assemble scalar_mean
            scalar_solver 5%nat None None scalar_world).
  - simpl. lia.
  - vm_compute. reflexivity.
Defined.

(** [self.M] and [self.K] of the one-degree-of-freedom solver after a call
    with a Robin condition. *)
Lemma solve_preserves_M_K_witness :
  is_Some (heap scalar_world !! hs_M scalar_solver) ∧
  is_Some (heap scalar_world !! hs_K scalar_solver) ∧
  heap (scalar_solve_call (Some scalar_robin)).2 !! hs_M scalar_solver
    = heap scalar_world !! hs_M scalar_solver ∧
  heap (scalar_solve_call (Some scalar_robin)).2 !! hs_K scalar_solver
    = heap scalar_world !! hs_K scalar_solver.
Proof.
  assert (HM : is_Some (heap scalar_world !! hs_M scalar_solver))
    by (eexists; reflexivity).
  assert (HK : is_Some (heap scalar_world !! hs_K scalar_solver))
    by (eexists; reflexivity).
  split; [exact HM|]. split; [exact HK|].
  exact (solve_preserves_M_K scalar_add scalar_scale scalar_matmul scalar_solve
           unit tt tt tt scalar_assemble scalar_assemble scalar_mean
           scalar_solver 5%nat (Some scalar_robin) None scalar_world HM HK).
Defined.

(** [RectMesher((0,0),(2,1), resolution=(3,3))]: 9 points and 8 faces. *)
Lemma RectMesher_mesh_grid_witness :
  2 ≤ 3 ∧ 2 ≤ 3 ∧
  ∃ m, RectMesher_mesh triangle_area_spec boundary_spec
         {| corners := ((0, 0), (2, 1))%Q; resolution := (3, 3) |} = Ok m ∧
       length (points m) = 9%nat ∧ length (faces m) = 8%nat ∧
       (∀ f, f ∈ faces m ↔
          ∃ i j, 0 ≤ i < 3 - 1 ∧ 0 ≤ j < 3 - 1 ∧
            (f = (j * 3 + i, j * 3 + (i + 1), (j + 1) * 3 + (i + 1)) ∨
             f = (j * 3 + i, (j + 1) * 3 + (i + 1), (j + 1) * 3 + i))).
Proof.
  split; [lia|]. split; [lia|].
  destruct (RectMesher_mesh_grid triangle_area_spec boundary_spec 0 0 2 1 3 3)
    as (xr & yr & _ & _ & _ & _ & Hm); [lia|lia|].
  destruct (Hm _ eq_refl) as (m & Hmesh & Hp & _ & Hf & Hfaces).
  exists m. split; [exact Hmesh|]. split; [lia|]. split; [lia|exact Hfaces].
Defined.

(** The edges of the unit square cut along a diagonal. *)
Lemma edges_of_mesh_witness :
  ∃ m,
    Mesh_init triangle_area_spec square_points square_faces square_boundary = Ok m ∧
    (∀ s, length (filter (λ e, same_pair e s) (edges m)) ≤ 1)%nat ∧
    (∀ e, e ∈ edges m → e.1 ≤ e.2) ∧
    (∀ f s, f ∈ faces m → s ∈ face_sides f →
       ∃ e, e ∈ edges m ∧ same_pair e s) ∧
    (∀ e, e ∈ edges m →
       ∃ f s, f ∈ faces m ∧ s ∈ face_sides f ∧ same_pair e s) ∧
    (∀ fs' m', rearranged square_faces fs' →
       Mesh_init triangle_area_spec square_points fs' square_boundary = Ok m' →
       list_to_set (edges m') =@{gset segment} list_to_set (edges m)).
Proof.
  eexists. split; [vm_compute; reflexivity|].
  apply (edges_of_mesh triangle_area_spec square_points square_faces square_boundary).
  vm_compute. reflexivity.
Defined.

(** Face adjacency on the unit square: its two faces have three different
    vertices each. *)
Lemma face_neighbors_relation_witness :
  ∃ m,
    Mesh_init triangle_area_spec square_points square_faces square_boundary = Ok m ∧
    Forall distinct_vertices (faces m) ∧
    (∀ A B, is_neighbor m A B ↔
       ∃ fA fB, lookup_face (faces m) A = Some fA ∧
                lookup_face (faces m) B = Some fB ∧ share_exactly_two fA fB) ∧
    (∀ A, ¬ is_neighbor m A A) ∧
    (∀ A B, is_neighbor m A B → is_neighbor m B A).
Proof.
  eexists. split; [vm_compute; reflexivity|].
  match goal with |- Forall _ (faces ?m) ∧ _ =>
    pose proof (face_neighbors_relation m) as (Hiff & Hirr & Hsym);
    assert (Hd : Forall distinct_vertices (faces m))
      by (apply (bool_decide_unpack _); vm_compute; exact I)
  end.
  split; [exact Hd|]. split; [exact (Hiff Hd)|]. split; [exact Hirr|exact Hsym].
Defined.

(** C5, counterexample. A mesh the constructor accepts, with a face that names
    a vertex twice: face 1 is listed as a neighbor of face 0 although the two
    faces share one vertex only. *)
Lemma face_neighbors_counterexample :
  ∃ m,
    Mesh_init triangle_area_spec square_points repeated_vertex_faces [] = Ok m ∧
    is_neighbor m 0 1 ∧
    ¬ ∃ fA fB, lookup_face (faces m) 0 = Some fA ∧
               lookup_face (faces m) 1 = Some fB ∧ share_exactly_two fA fB.
Proof.
  eexists. split; [vm_compute; reflexivity|]. split.
  - exists [1; 1]. split; [vm_compute; reflexivity|]. left.
  - intros (fA & fB & HA & HB & Hshare).
    vm_compute in HA, HB. injection HA as <-. injection HB as <-.
    vm_compute in Hshare. discriminate.
Qed.

(** The totals of the constant field [1.0] on the unit square. *)
Lemma total_value_constant_binary64_witness :
  ∃ m,
    Binary64.Mesh_init Binary64.triangle_area_spec Binary64.square_points
      square_faces square_boundary = Ok m ∧
    Binary64.np_mean [1; 1; 1]%float = 1%float ∧
    ∃ tf tv,
      Binary64.calculate_total_value m
        (replicate (length (Binary64.faces m)) 1%float) = Ok (Some tf) ∧
      Binary64.calculate_total_value m
        (replicate (length (Binary64.points m)) 1%float) = Ok (Some tv) ∧
      tf = tv.
Proof.
  eexists. split; [vm_compute; reflexivity|]. split; [vm_compute; reflexivity|].
  destruct (total_value_constant_binary64 Binary64.triangle_area_spec
              Binary64.square_points square_faces square_boundary _ 1%float
              ltac:(vm_compute; reflexivity))
    as (tf & tv & Hf & Hv & _ & Heq).
  exists tf, tv. split; [exact Hf|]. split; [exact Hv|].
  apply Heq. left. vm_compute. reflexivity.
Defined.

(** C6, counterexample. On the unit square cut along a diagonal, the constant
    field [0.1] has the face-valued total [0.1] and the vertex-valued total
    [0.10000000000000002]: [np.mean([0.1, 0.1, 0.1])] is not [0.1]. The two
    totals are different numbers, and the second is not [0.1] times the sum
    of the areas. *)
Lemma total_value_constant_counterexample :
  ∃ m tf tv,
    Binary64.Mesh_init Binary64.triangle_area_spec Binary64.square_points
      square_faces square_boundary = Ok m ∧
    Binary64.calculate_total_value m
      (replicate (length (Binary64.faces m)) Binary64.one_tenth) = Ok (Some tf) ∧
    Binary64.calculate_total_value m
      (replicate (length (Binary64.points m)) Binary64.one_tenth) = Ok (Some tv) ∧
    tf = Binary64.one_tenth ∧ tv = Binary64.one_tenth_up ∧
    PrimFloat.eqb tf tv = false ∧
    PrimFloat.eqb tv (Binary64.one_tenth * Binary64.py_sum (Binary64.areas m))
    = false.
Proof.
  eexists _, _, _. split; [vm_compute; reflexivity|].
  split; [vm_compute; reflexivity|]. split; [vm_compute; reflexivity|].
  split_and!; vm_compute; reflexivity.
Qed.

(** The constructor on three collinear points. *)
Lemma Mesh_init_accepts_any_area_witness :
  faces_in_range collinear_points collinear_faces ∧
  ∃ m,
    Mesh_init triangle_area_spec collinear_points collinear_faces
      collinear_boundary = Ok m ∧
    points m = collinear_points ∧ faces m = collinear_faces ∧
    boundary m = collinear_boundary ∧
    Forall2 (λ f a, ∃ tri, np_take collinear_points f = Ok tri ∧
                           a = triangle_area_spec tri)
            collinear_faces (areas m).
Proof.
  assert (Hr : faces_in_range collinear_points collinear_faces).
  { apply faces_in_range_Forall. repeat constructor; simpl; lia. }
  split; [exact Hr|].
  exact (proj1 (Mesh_init_accepts_any_area triangle_area_spec collinear_points
                  collinear_faces collinear_boundary) Hr).
Defined.

(** C7, counterexample. Three collinear points span a face of area zero, and
    the constructor builds the mesh with that face. *)
Lemma Mesh_init_zero_area_counterexample :
  ∃ m,
    Mesh_init triangle_area_spec collinear_points collinear_faces
      collinear_boundary = Ok m ∧
    faces m = collinear_faces ∧
    Forall (λ a, a == 0)%Q (areas m).
Proof.
  eexists. split; [vm_compute; reflexivity|]. split; [reflexivity|].
  repeat constructor.
Qed.

(** A single column of three points. *)
Lemma RectMesher_accepts_degenerate_resolution_witness :
  0 ≤ 1 ∧ 0 ≤ 3 ∧ (1 < 2 ∨ 3 < 2) ∧
  ∃ self m,
    RectMesher_init ((0, 0), (2, 1))%Q (1, 3) = Ok self ∧
    RectMesher_mesh triangle_area_spec boundary_spec self = Ok m ∧
    Z.of_nat (length (points m)) = 1 * 3 ∧ faces m = [] ∧ areas m = [].
Proof.
  split; [lia|]. split; [lia|]. split; [left; lia|].
  destruct (RectMesher_accepts_degenerate_resolution triangle_area_spec
              boundary_spec 0 0 2 1 1 3)
    as (self & xr & yr & Hinit & _ & _ & _ & Hm); [lia|lia|left; lia|].
  destruct (Hm _ eq_refl) as (m & Hmesh & Hrest).
  exists self, m. split; [exact Hinit|]. split; [exact Hmesh|exact Hrest].
Defined.

(** C8, counterexample. [RectMesher((0,0),(2,1), resolution=(1,3))] is
    accepted, and [mesh()] returns a mesh of three points and no face. *)
Lemma RectMesher_single_column_counterexample :
  ∃ self m,
    RectMesher_init ((0, 0), (2, 1))%Q (1, 3) = Ok self ∧
    RectMesher_mesh triangle_area_spec boundary_spec self = Ok m ∧
    length (points m) = 3%nat ∧ faces m = [].
Proof.
  eexists _, _. split; [reflexivity|]. split; [vm_compute; reflexivity|].
  split; reflexivity.
Qed.

(** The three cases of the dispatch on the unit square, which has two faces
    and four points. *)
Lemma total_value_dispatch_witness :
  ∃ m,
    Mesh_init triangle_area_spec square_points square_faces square_boundary = Ok m ∧
    calculate_total_value m [1; 2]%Q = Ok (Some (face_valued_total m [1; 2]%Q)) ∧
    calculate_total_value m [1; 2; 3; 4]%Q
      = Ok (Some (vertex_valued_total m [1; 2; 3; 4]%Q)) ∧
    calculate_total_value m [1]%Q = Ok None ∧
    calculate_mean_value m [1]%Q = Raise TypeError.
Proof.
  eexists. split; [vm_compute; reflexivity|].
  match goal with |- calculate_total_value ?m _ = _ ∧ _ =>
    assert (Hm : Mesh_init triangle_area_spec square_points square_faces
                   square_boundary = Ok m) by (vm_compute; reflexivity)
  end.
  split; [|split].
  - apply (proj1 (total_value_dispatch _ _ _ _ _ [1; 2]%Q Hm)). reflexivity.
  - apply (proj1 (proj2 (total_value_dispatch _ _ _ _ _ [1; 2; 3; 4]%Q Hm)));
      [simpl; lia|reflexivity].
  - apply (proj2 (proj2 (total_value_dispatch _ _ _ _ _ [1]%Q Hm))); simpl; lia.
Defined.

(** * Further properties *)

(** ** The constructor *)

Lemma Mesh_init_Ok_inv area pts fs bd m :
  Mesh_init area pts fs bd = Ok m →
  ∃ ars,
    omap (λ f, tri ← np_take pts f ; Ok (area tri)) fs = Ok ars ∧
    m = {| points := pts; faces := fs; boundary := bd;
           boundary_idxs := elements (list_to_set (ravel bd) : gset Z);
           areas := ars; edges := _get_all_edges fs |}.
Proof.
  unfold Mesh_init, mbind, outcome_bind.
  destruct (omap _ fs) as [ars|] eqn:Hars; [|done].
  intros [= <-]. by exists ars.
Qed.

Lemma elem_of_ravel bd v :
  v ∈ ravel bd ↔ ∃ s, s ∈ bd ∧ (v = s.1 ∨ v = s.2).
Proof.
  unfold ravel. rewrite elem_of_flat_map. split.
  - intros (s & Hs & Hv). exists s. split; [done|].
    repeat (apply elem_of_cons in Hv as [-> |Hv]); auto. by inversion Hv.
  - intros (s & Hs & [-> | ->]); exists s; (split; [done|]); set_solver.
Qed.

(** X1. [boundary_idxs] lists every endpoint of a boundary segment once, and
    nothing else. *)
Theorem boundary_idxs_of_mesh area pts fs bd m :
  Mesh_init area pts fs bd = Ok m →
  NoDup (boundary_idxs m) ∧
  ∀ v, v ∈ boundary_idxs m ↔ ∃ s, s ∈ boundary m ∧ (v = s.1 ∨ v = s.2).
Proof.
  intros Hm. destruct (Mesh_init_Ok_inv _ _ _ _ _ Hm) as (ars & _ & ->). simpl.
  split; [apply NoDup_elements|].
  intros v. by rewrite elem_of_elements, elem_of_list_to_set, elem_of_ravel.
Qed.

(** ** Deformation *)

Lemma list_pair_ind {A} (P : list A → Prop) :
  P [] → (∀ x, P [x]) → (∀ x y l, P l → P (x :: y :: l)) → ∀ l, P l.
Proof.
  intros H0 H1 H2 l. cut (P l ∧ ∀ x, P (x :: l)); [tauto|].
  induction l as [|y l [IH1 IH2]]; [by split|]. split; [apply IH2|].
  intros x. by apply H2.
Qed.

Lemma reshape2_even u (n : nat) :
  length u = (2 * n)%nat →
  ∃ rows, reshape2 u = Ok rows ∧ length rows = n ∧
          ∀ (i : nat) dx dy,
            rows !! i = Some (dx, dy) ↔
            u !! (2 * i)%nat = Some dx ∧ u !! (2 * i + 1)%nat = Some dy.
Proof.
  revert n. induction u as [|x|x y u IH] using list_pair_ind; intros n Hn.
  - exists []. destruct n; [|simpl in Hn; lia]. split_and!; [done..|].
    intros i dx dy. rewrite !lookup_nil. naive_solver.
  - simpl in Hn. lia.
  - destruct n as [|n]; [simpl in Hn; lia|].
    destruct (IH n) as (rows & Hr & Hlen & Hrows); [simpl in Hn; lia|].
    exists ((x, y) :: rows). split_and!.
    { simpl. by rewrite Hr. }
    { simpl. lia. }
    intros [|i] dx dy.
    + simpl. naive_solver.
    + replace (2 * S i)%nat with (S (S (2 * i))) by lia.
      replace (S (S (2 * i)) + 1)%nat with (S (S (2 * i + 1))) by lia.
      apply Hrows.
Qed.

Lemma reshape2_odd u (n : nat) :
  length u = (2 * n + 1)%nat → reshape2 u = Raise ValueError.
Proof.
  revert n. induction u as [|x|x y u IH] using list_pair_ind; intros n Hn.
  - simpl in Hn. lia.
  - done.
  - destruct n as [|n]; [simpl in Hn; lia|].
    simpl. rewrite (IH n); [done|]. simpl in Hn. lia.
Qed.

Lemma reshape2_zeros (n : nat) :
  reshape2 (replicate (2 * n) 0%Q) = Ok (replicate n (0, 0)%Q).
Proof.
  induction n as [|n IH]; [done|].
  replace (2 * S n)%nat with (S (S (2 * n))) by lia. simpl.
  replace (n + (n + 0))%nat with (2 * n)%nat by lia. by rewrite IH.
Qed.

Lemma np_add_rows_same_length pts d :
  pts ≠ [] → length pts = length d →
  np_add_rows pts d = Ok (zip_with point_add pts d).
Proof.
  intros Hne Hlen. destruct pts as [|p [|p' pts]]; [done|..].
  - destruct d as [|q [|q' d]]; simpl in *; try lia. done.
  - destruct d as [|q [|q' d]]; simpl in *; try lia.
    rewrite decide_True by (simpl; lia). done.
Qed.

Lemma faces_in_range_length pts pts' fs :
  length pts = length pts' → faces_in_range pts fs → faces_in_range pts' fs.
Proof. unfold faces_in_range. intros <-. done. Qed.

(** X3. A displacement with two entries per vertex moves every vertex by its
    own two entries and keeps the topology: faces, boundary, boundary
    vertices and edges are those of the original mesh. *)
Theorem get_deformed_mesh_displaces area pts fs bd m u :
  Mesh_init area pts fs bd = Ok m → points m ≠ [] →
  length u = (2 * length (points m))%nat →
  ∃ m',
    get_deformed_mesh area m u = Ok m' ∧
    faces m' = faces m ∧ boundary m' = boundary m ∧
    boundary_idxs m' = boundary_idxs m ∧ edges m' = edges m ∧
    length (points m') = length (points m) ∧
    ∀ (i : nat) p, points m !! i = Some p →
      ∃ dx dy, u !! (2 * i)%nat = Some dx ∧ u !! (2 * i + 1)%nat = Some dy ∧
               points m' !! i = Some (p.1 + dx, p.2 + dy)%Q.
Proof.
  intros Hm Hne Hu.
  pose proof (Mesh_init_Ok_in_range _ _ _ _ _ Hm) as Hr.
  destruct (Mesh_init_Ok_inv _ _ _ _ _ Hm) as (ars & Hars & ->). simpl in *.
  destruct (reshape2_even u (length pts) Hu) as (d & Hd & Hlen & Hrows).
  set (pts' := zip_with point_add pts d).
  assert (Hlen' : length pts' = length pts).
  { unfold pts'. rewrite length_zip_with. lia. }
  destruct (Mesh_init_in_range area pts' fs bd) as [m' Hm'].
  { by apply (faces_in_range_length pts). }
  exists m'. unfold get_deformed_mesh. simpl. rewrite Hd. simpl.
  rewrite np_add_rows_same_length by done. simpl. fold pts'.
  destruct (Mesh_init_Ok_inv _ _ _ _ _ Hm') as (ars' & _ & ->). simpl.
  split_and!; try done.
  intros i p Hp.
  destruct (lookup_lt_is_Some_2 d i) as [[dx dy] Hdi].
  { rewrite Hlen. by eapply lookup_lt_Some. }
  exists dx, dy. apply Hrows in Hdi as Hui. destruct Hui as [Hx Hy].
  split_and!; [done..|].
  apply lookup_zip_with_Some. by exists p, (dx, dy).
Qed.

Lemma point_add_zero p : point_add p (0, 0)%Q = p.
Proof.
  destruct p as [[xn xd] [yn yd]]. unfold point_add, Qplus. simpl.
  rewrite !Z.mul_1_r, !Z.add_0_r, !Pos.mul_1_r. done.
Qed.

(** X4. The zero displacement gives back the mesh itself. *)
Theorem get_deformed_mesh_zero area pts fs bd m :
  Mesh_init area pts fs bd = Ok m → points m ≠ [] →
  get_deformed_mesh area m (replicate (2 * length (points m)) 0%Q) = Ok m.
Proof.
  intros Hm Hne.
  destruct (Mesh_init_Ok_inv _ _ _ _ _ Hm) as (ars & Hars & Heq).
  unfold get_deformed_mesh. rewrite reshape2_zeros. simpl.
  rewrite np_add_rows_same_length by (by rewrite ?length_replicate).
  assert (Hz : zip_with point_add (points m) (replicate (length (points m)) (0, 0)%Q)
               = points m).
  { generalize (points m). intros l. induction l as [|p l IH]; [done|].
    simpl. by rewrite point_add_zero, IH. }
  rewrite Hz. simpl. rewrite Heq. simpl. by rewrite <- Heq.
Qed.

(** X5. A displacement with an odd number of entries is refused, and so is,
    on a mesh of two points or more, a displacement whose number of rows is
    neither one nor the number of points. *)
Theorem get_deformed_mesh_shape_errors area (m : Mesh) u (n : nat) :
  (length u = (2 * n + 1)%nat → get_deformed_mesh area m u = Raise ValueError) ∧
  (length u = (2 * n)%nat → (2 ≤ length (points m))%nat →
   n ≠ 1%nat → n ≠ length (points m) →
   get_deformed_mesh area m u = Raise ValueError).
Proof.
  split.
  - intros Hu. unfold get_deformed_mesh. by rewrite (reshape2_odd u n Hu).
  - intros Hu HN Hn1 HnN.
    destruct (reshape2_even u n Hu) as (d & Hd & Hlen & _).
    unfold get_deformed_mesh. rewrite Hd. simpl.
    destruct (points m) as [|p [|p' pts]]; simpl in HN; try lia.
    destruct d as [|q [|q' d]]; simpl in *; try lia; try done.
    rewrite decide_False by (simpl; lia). done.
Qed.

(** X6. A displacement of two entries is applied to every vertex: the mesh is
    translated, with the same topology. *)
Theorem get_deformed_mesh_translates area pts fs bd m dx dy :
  Mesh_init area pts fs bd = Ok m → points m ≠ [] →
  ∃ m',
    get_deformed_mesh area m [dx; dy] = Ok m' ∧
    points m' = (λ p, (p.1 + dx, p.2 + dy)%Q) <$> points m ∧
    faces m' = faces m ∧ boundary m' = boundary m ∧
    boundary_idxs m' = boundary_idxs m ∧ edges m' = edges m.
Proof.
  intros Hm Hne.
  pose proof (Mesh_init_Ok_in_range _ _ _ _ _ Hm) as Hr.
  destruct (Mesh_init_Ok_inv _ _ _ _ _ Hm) as (ars & Hars & ->). simpl in *.
  set (pts' := (λ p, (p.1 + dx, p.2 + dy)%Q) <$> pts).
  destruct (Mesh_init_in_range area pts' fs bd) as [m' Hm'].
  { apply (faces_in_range_length pts); [|done]. unfold pts'.
    by rewrite length_fmap. }
  exists m'. unfold get_deformed_mesh.
  cbv beta iota delta [mbind outcome_bind reshape2]. cbn [points faces boundary].
  match goal with |- context [np_add_rows ?a ?b] =>
    assert (Hadd : np_add_rows a b = Ok pts')
      by (by destruct pts as [|p [|p' pts]]);
    rewrite Hadd
  end.
  destruct (Mesh_init_Ok_inv _ _ _ _ _ Hm') as (ars' & _ & ->). done.
Qed.

(** ** Queries on edges and boundary vertices *)

Lemma Qminus_zero_iff (a b : Q) : (a - b == 0 ↔ a == b)%Q.
Proof.
  split; intros H.
  - setoid_replace a with (a - b + b)%Q using relation Qeq by ring.
    rewrite H. ring.
  - rewrite H. ring.
Qed.

Lemma is_diagonal_false p1 p2 :
  is_diagonal p1 p2 = false ↔ (p1.1 == p2.1 ∨ p1.2 == p2.2)%Q.
Proof.
  unfold is_diagonal. rewrite andb_false_iff, !negb_false_iff.
  by rewrite !Qeq_bool_iff, !Qminus_zero_iff.
Qed.

Lemma edges_in_idxs_loop_spec pts S excl es :
  (∀ e, e ∈ es → valid_index (length pts) e.1 ∧ valid_index (length pts) e.2) →
  ∃ r, edges_in_idxs_loop pts S excl es = Ok r ∧ r `sublist_of` es ∧
       ∀ e, e ∈ r ↔ e ∈ es ∧ e.1 ∈ S ∧ e.2 ∈ S ∧
                    (excl = true → axis_aligned pts e).
Proof.
  induction es as [|edge es IH]; intros Hvalid.
  - exists []. split_and!; [done..|].
    intros e. split; [by inversion 1|]. intros [He _]. by inversion He.
  - destruct IH as (r & Hr & Hsub & Hmem).
    { intros e He. apply Hvalid. by right. }
    destruct (Hvalid edge) as [Hv1 Hv2]; [left|].
    destruct (np_index_valid pts edge.1 Hv1) as (p1 & Hp1 & _).
    destruct (np_index_valid pts edge.2 Hv2) as (p2 & Hp2 & _).
    assert (Hskip : ¬ (edge.1 ∈ S ∧ edge.2 ∈ S ∧ (excl = true → axis_aligned pts edge)) →
                    ∀ e, e ∈ r ↔ e ∈ edge :: es ∧ e.1 ∈ S ∧ e.2 ∈ S ∧
                                 (excl = true → axis_aligned pts e)).
    { intros Hno e. rewrite Hmem, elem_of_cons. split; [naive_solver|].
      intros ([-> |He] & H1 & H2 & H3); [|done]. destruct Hno. done. }
    assert (Hkeep : (edge.1 ∈ S ∧ edge.2 ∈ S ∧ (excl = true → axis_aligned pts edge)) →
                    ∀ e, e ∈ edge :: r ↔ e ∈ edge :: es ∧ e.1 ∈ S ∧ e.2 ∈ S ∧
                                 (excl = true → axis_aligned pts e)).
    { intros Hyes e. rewrite !elem_of_cons, Hmem. naive_solver. }
    simpl. case_decide as HS.
    + destruct excl.
      * rewrite Hp1, Hp2. simpl. destruct (is_diagonal p1 p2) eqn:Hdiag.
        -- exists r. split_and!; [done|by apply sublist_cons|].
           apply Hskip. intros (_ & _ & Hax).
           destruct (Hax eq_refl) as (q1 & q2 & Hq1 & Hq2 & Haligned).
           rewrite Hp1 in Hq1. rewrite Hp2 in Hq2.
           injection Hq1 as <-. injection Hq2 as <-.
           apply is_diagonal_false in Haligned. congruence.
        -- rewrite Hr. simpl. exists (edge :: r).
           split_and!; [done|by apply sublist_skip|].
           apply Hkeep. destruct HS. split_and!; [done..|].
           intros _. exists p1, p2. split_and!; [done..|].
           by apply is_diagonal_false.
      * rewrite Hr. simpl. exists (edge :: r).
        split_and!; [done|by apply sublist_skip|].
        apply Hkeep. destruct HS. by split_and!.
    + exists r. split_and!; [done|by apply sublist_cons|].
      apply Hskip. naive_solver.
Qed.

Lemma sorted_edge_endpoints a b :
  sorted_edge a b = (a, b) ∨ sorted_edge a b = (b, a).
Proof. unfold sorted_edge. case_decide; auto. Qed.

Lemma face_sides_endpoints f s :
  s ∈ face_sides f → s.1 ∈ face_list f ∧ s.2 ∈ face_list f.
Proof.
  destruct f as [[a b] c]. simpl. intros Hs.
  repeat (apply elem_of_cons in Hs as [-> |Hs]); [..|by inversion Hs];
    simpl; set_solver.
Qed.

(** The endpoints of the edges of a mesh are valid vertex indices. *)
Lemma edges_valid area pts fs bd m e :
  Mesh_init area pts fs bd = Ok m → e ∈ edges m →
  valid_index (length (points m)) e.1 ∧ valid_index (length (points m)) e.2.
Proof.
  intros Hm He. pose proof (Mesh_init_Ok_in_range _ _ _ _ _ Hm) as Hr.
  destruct (Mesh_init_Ok_inv _ _ _ _ _ Hm) as (ars & _ & ->). simpl in *.
  unfold _get_all_edges in He.
  apply elem_of_elements, elem_of_all_edges_set in He as (f & s & Hf & Hs & ->).
  destruct (face_sides_endpoints f s Hs) as [H1 H2].
  destruct (sorted_edge_endpoints s.1 s.2) as [-> | ->]; simpl;
    split; by eapply Hr.
Qed.

(** X7. [get_edges_in_idxs] never raises on a mesh: it returns, in the order
    of [edges], the edges with both endpoints in the given vertices, and with
    [exclude_corners] only those among them whose endpoints share a
    coordinate. *)
Theorem get_edges_in_idxs_selects area pts fs bd m S excl :
  Mesh_init area pts fs bd = Ok m →
  ∃ r, get_edges_in_idxs m S excl = Ok r ∧ r `sublist_of` edges m ∧
       ∀ e, e ∈ r ↔ e ∈ edges m ∧ e.1 ∈ S ∧ e.2 ∈ S ∧
                    (excl = true → axis_aligned (points m) e).
Proof.
  intros Hm. apply edges_in_idxs_loop_spec. intros e He.
  by eapply edges_valid.
Qed.

Lemma in_rect_inside rect p : in_rect rect p = true ↔ inside_rect rect p.
Proof.
  destruct rect as [[[x_min y_min] x_max] y_max]. unfold in_rect, inside_rect.
  rewrite !andb_true_iff, !Qle_bool_iff. tauto.
Qed.

Lemma boundary_idxs_in_rect_loop_valid pts rect idxs :
  Forall (valid_index (length pts)) idxs →
  ∃ r, boundary_idxs_in_rect_loop pts rect idxs = Ok r ∧ r `sublist_of` idxs ∧
       ∀ v, v ∈ r ↔ v ∈ idxs ∧ ∃ p, np_index pts v = Ok p ∧ inside_rect rect p.
Proof.
  induction 1 as [|idx idxs Hv _ (r & Hr & Hsub & Hmem)].
  - exists []. split_and!; [done..|].
    intros v. split; [by inversion 1|]. intros [Hv _]. by inversion Hv.
  - destruct (np_index_valid pts idx Hv) as (p & Hp & _).
    simpl. rewrite Hp, Hr. simpl. destruct (in_rect rect p) eqn:Hin.
    + exists (idx :: r). split_and!; [done|by apply sublist_skip|].
      intros v. rewrite !elem_of_cons, Hmem. split; [|naive_solver].
      intros [-> |?]; [|naive_solver]. split; [by left|].
      exists p. split; [done|]. by apply in_rect_inside.
    + exists r. split_and!; [done|by apply sublist_cons|].
      intros v. rewrite elem_of_cons, Hmem. split; [naive_solver|].
      intros ([-> |?] & q & Hq & Hins); [|naive_solver].
      rewrite Hp in Hq. injection Hq as <-. apply in_rect_inside in Hins.
      congruence.
Qed.

Lemma boundary_idxs_in_rect_loop_invalid pts rect idxs :
  ¬ Forall (valid_index (length pts)) idxs →
  boundary_idxs_in_rect_loop pts rect idxs = Raise IndexError.
Proof.
  induction idxs as [|idx idxs IH]; intros Hbad; [by destruct Hbad|].
  simpl. destruct (decide (valid_index (length pts) idx)) as [Hv|Hv].
  - destruct (np_index_valid pts idx Hv) as (p & -> & _). simpl.
    rewrite IH; [done|]. intros Hall. apply Hbad. by constructor.
  - by rewrite (np_index_invalid pts idx Hv).
Qed.

Lemma elem_of_boundary_idxs area pts fs bd m v :
  Mesh_init area pts fs bd = Ok m →
  v ∈ boundary_idxs m ↔ ∃ s, s ∈ bd ∧ (v = s.1 ∨ v = s.2).
Proof.
  intros Hm. destruct (Mesh_init_Ok_inv _ _ _ _ _ Hm) as (ars & _ & ->). simpl.
  by rewrite elem_of_elements, elem_of_list_to_set, elem_of_ravel.
Qed.

(** X8. When every boundary segment joins valid vertex indices,
    [get_boundary_idxs_in_rect] returns, without repetition, exactly the
    boundary vertices whose point lies in the rectangle, bounds included. *)
Theorem get_boundary_idxs_in_rect_selects area pts fs bd m rect :
  Mesh_init area pts fs bd = Ok m →
  (∀ s, s ∈ bd → valid_index (length pts) s.1 ∧ valid_index (length pts) s.2) →
  ∃ r, get_boundary_idxs_in_rect m rect = Ok r ∧ NoDup r ∧
       ∀ v, v ∈ r ↔ v ∈ boundary_idxs m ∧
                    ∃ p, np_index (points m) v = Ok p ∧ inside_rect rect p.
Proof.
  intros Hm Hbd.
  assert (Hvalid : Forall (valid_index (length (points m))) (boundary_idxs m)).
  { apply Forall_forall. intros v Hv.
    apply (elem_of_boundary_idxs _ _ _ _ _ _ Hm) in Hv as (s & Hs & Hv).
    destruct (Mesh_init_fields _ _ _ _ _ Hm) as (-> & _).
    destruct (Hbd s Hs). by destruct Hv as [-> | ->]. }
  destruct (boundary_idxs_in_rect_loop_valid (points m) rect _ Hvalid)
    as (r & Hr & Hsub & Hmem).
  exists r. split_and!; [done| |done].
  eapply sublist_NoDup; [|exact Hsub].
  destruct (Mesh_init_Ok_inv _ _ _ _ _ Hm) as (ars & _ & ->). simpl.
  apply NoDup_elements.
Qed.

(** X9. The constructor does not look at the indices of [boundary]: a
    boundary segment with an index out of range is accepted, and is found
    only by [get_boundary_idxs_in_rect], which then raises [IndexError]
    whatever the rectangle. *)
Theorem get_boundary_idxs_in_rect_out_of_range area pts fs bd m rect s :
  Mesh_init area pts fs bd = Ok m → s ∈ bd →
  ¬ valid_index (length pts) s.1 ∨ ¬ valid_index (length pts) s.2 →
  get_boundary_idxs_in_rect m rect = Raise IndexError.
Proof.
  intros Hm Hs Hbad. apply boundary_idxs_in_rect_loop_invalid.
  destruct (Mesh_init_fields _ _ _ _ _ Hm) as (-> & _).
  rewrite Forall_forall. intros Hall.
  destruct Hbad as [Hbad|Hbad]; apply Hbad, Hall;
    apply (elem_of_boundary_idxs _ _ _ _ _ _ Hm); exists s; auto.
Qed.

(** ** Totals, means and energy *)

(** X10. [calculate_energy] ignores [u]: the Dirichlet term is the constant
    [0] of the source, so when [dudt] has one entry per face or per vertex
    the method raises nothing and returns the same number for every [u];
    with any other length of [dudt] it raises [TypeError]. *)
Theorem calculate_energy_kinetic area pts fs bd m dudt :
  Mesh_init area pts fs bd = Ok m →
  (length dudt = length (faces m) ∨ length dudt = length (points m) →
   ∃ e, ∀ u, calculate_energy m u dudt = Ok e) ∧
  (length dudt ≠ length (faces m) → length dudt ≠ length (points m) →
   ∀ u, calculate_energy m u dudt = Raise TypeError).
Proof.
  intros Hm. pose proof (Mesh_init_length_areas _ _ _ _ _ Hm) as Hlen.
  pose proof (Mesh_init_Ok_in_range _ _ _ _ _ Hm) as Hr.
  destruct (Mesh_init_fields _ _ _ _ _ Hm) as (Hp & Hf & _).
  rewrite <- Hp, <- Hf in Hr.
  set (sq := (λ x, x * x)%Q <$> dudt).
  assert (Hlsq : length sq = length dudt) by apply length_fmap.
  split.
  - intros Hcase.
    destruct (decide (length dudt = length (faces m))) as [Hface|Hnface].
    + exists (0 + (1 # 2) * face_valued_total m sq)%Q.
      intros u. unfold calculate_energy. fold sq.
      rewrite total_value_face_branch by congruence. done.
    + destruct Hcase as [?|Hvert]; [done|].
      exists (0 + (1 # 2) * vertex_valued_total m sq)%Q.
      intros u. unfold calculate_energy. fold sq.
      rewrite (total_value_vertex_branch m sq Hlen Hr) by congruence. done.
  - intros Hnf Hnp u. unfold calculate_energy, calculate_total_value.
    rewrite !length_fmap, !decide_False by done. done.
Qed.

(** X12. On a mesh without faces [calculate_mean_value] returns no value: it
    raises [ZeroDivisionError] for a field with no entry or with one entry
    per vertex, and [TypeError] for any other field. *)
Theorem calculate_mean_value_no_face (m : Mesh) u :
  faces m = [] →
  calculate_mean_value m u =
  Raise (if decide (length u = 0%nat ∨ length u = length (points m))
         then ZeroDivisionError else TypeError).
Proof.
  intros Hf. unfold calculate_mean_value, calculate_total_value. rewrite Hf.
  simpl. destruct (decide (length u = 0%nat)) as [H0|H0]; simpl.
  - by rewrite decide_True by auto.
  - destruct (decide (length u = length (points m))) as [Hp|Hp]; simpl.
    + by rewrite decide_True by auto.
    + by rewrite decide_False by tauto.
Qed.

(** ** More on face adjacency *)

Lemma py_count_keep_twice l x :
  py_count (keep_twice l) x = if decide (py_count l x = 2%nat) then 2%nat else 0%nat.
Proof.
  unfold keep_twice.
  assert (H : ∀ l', py_count (filter (λ idx, py_count l idx = 2%nat) l') x =
                    if decide (py_count l x = 2%nat) then py_count l' x else 0%nat).
  { induction l' as [|y l' IH]; [by case_decide|].
    rewrite filter_cons. destruct (decide (py_count l y = 2%nat)) as [Hy|Hy].
    - rewrite !py_count_cons, IH. repeat case_decide; try congruence; lia.
    - rewrite IH, py_count_cons. repeat case_decide; try congruence; lia. }
  rewrite H. by case_decide.
Qed.

(** X14. The dictionary of [calculate_face_neighbors] has one entry per face
    index and no other; in an entry, every listed face is listed exactly
    twice. *)
Theorem face_neighbors_entries (m : Mesh) :
  (∀ A, is_Some (calculate_face_neighbors m !! A) ↔
        0 ≤ A < Z.of_nat (length (faces m))) ∧
  (∀ A l B, calculate_face_neighbors m !! A = Some l →
            B ∈ l → py_count l B = 2%nat).
Proof.
  split.
  - intros A. rewrite calculate_face_neighbors_lookup, fmap_is_Some.
    unfold lookup_face. case_decide.
    + rewrite lookup_lt_is_Some. lia.
    + split; [by intros []|lia].
  - intros A l B. rewrite calculate_face_neighbors_lookup.
    destruct (lookup_face (faces m) A) as [f|]; [|done]. simpl.
    intros [= <-] HB. apply elem_of_keep_twice in HB.
    rewrite py_count_keep_twice. by rewrite decide_True.
Qed.

(** ** More on the rectangular grid *)

(** X15. With a negative number of samples along either axis, [mesh()] raises
    the [ValueError] of [np.linspace], whatever the boundary helper does. *)
Theorem RectMesher_mesh_negative_resolution area get_boundary c nx ny :
  nx < 0 ∨ ny < 0 →
  RectMesher_mesh area get_boundary {| corners := c; resolution := (nx, ny) |}
  = Raise ValueError.
Proof.
  intros Hneg. destruct c as [[x0 y0] [x1 y1]]. unfold RectMesher_mesh. simpl.
  destruct (decide (nx < 0)) as [Hx|Hx].
  - by rewrite (linspace_negative x0 x1 nx) by lia.
  - destruct (linspace_Ok x0 x1 nx) as (xr & -> & _); [lia|]. simpl.
    rewrite (linspace_negative y0 y1 ny) by lia. done.
Qed.

Lemma cell_faces_distinct nx i j f :
  2 ≤ nx → f ∈ cell_faces nx i j → distinct_vertices f.
Proof.
  intros Hnx Hf. unfold cell_faces, get_index in Hf.
  repeat (apply elem_of_cons in Hf as [-> |Hf]); [| |by inversion Hf];
    unfold distinct_vertices; simpl;
    repeat (apply NoDup_cons; split; [rewrite ?elem_of_cons, ?elem_of_nil; nia|]);
    apply NoDup_nil_2.
Qed.

Lemma grid_faces_distinct nx ny :
  2 ≤ nx → Forall distinct_vertices (grid_faces nx ny).
Proof.
  intros Hnx. apply Forall_forall. intros f Hf.
  apply elem_of_grid_faces in Hf as (i & j & _ & _ & Hf).
  by eapply cell_faces_distinct.
Qed.

Lemma RectMesher_mesh_Ok_inv area get_boundary x0 y0 x1 y1 nx ny m :
  RectMesher_mesh area get_boundary
    {| corners := ((x0, y0), (x1, y1)); resolution := (nx, ny) |} = Ok m →
  ∃ xr yr bd,
    linspace x0 x1 nx = Ok xr ∧ linspace y0 y1 ny = Ok yr ∧
    Mesh_init area (grid_points xr yr) (grid_faces nx ny) bd = Ok m.
Proof.
  unfold RectMesher_mesh. simpl. unfold mbind, outcome_bind.
  destruct (linspace x0 x1 nx) as [xr|]; [|done].
  destruct (linspace y0 y1 ny) as [yr|]; [|done].
  destruct (get_boundary _ _) as [bd|]; [|done]. eauto 10.
Qed.

(** X16. On every mesh produced by [RectMesher] with at least two samples
    along [x], two faces are reported as neighbors exactly when they share
    exactly two vertices. *)
Theorem RectMesher_face_neighbors area get_boundary x0 y0 x1 y1 nx ny m :
  2 ≤ nx →
  RectMesher_mesh area get_boundary
    {| corners := ((x0, y0), (x1, y1)); resolution := (nx, ny) |} = Ok m →
  ∀ A B, is_neighbor m A B ↔
    ∃ fA fB, lookup_face (faces m) A = Some fA ∧
             lookup_face (faces m) B = Some fB ∧ share_exactly_two fA fB.
Proof.
  intros Hnx Hmesh A B.
  destruct (RectMesher_mesh_Ok_inv _ _ _ _ _ _ _ _ _ Hmesh) as (xr & yr & bd & _ & _ & Hm).
  destruct (Mesh_init_fields _ _ _ _ _ Hm) as (_ & Hf & _).
  pose proof (grid_faces_distinct nx ny Hnx) as Hd. rewrite <- Hf in Hd.
  rewrite Forall_forall in Hd.
  rewrite is_neighbor_match_count. unfold share_exactly_two.
  split; intros (fA & fB & HA & HB & Hc); exists fA, fB; split_and!; try done.
  - rewrite <- match_count_distinct; eauto using lookup_face_elem_of.
  - rewrite match_count_distinct; eauto using lookup_face_elem_of.
Qed.

(** X17. A mesh produced by [RectMesher] with at least two samples along each
    axis has no orphan point: every point index is a vertex of some face, and
    every vertex of a face is a point index. *)
Theorem RectMesher_no_orphan_point area get_boundary x0 y0 x1 y1 nx ny m :
  2 ≤ nx → 2 ≤ ny →
  RectMesher_mesh area get_boundary
    {| corners := ((x0, y0), (x1, y1)); resolution := (nx, ny) |} = Ok m →
  ∀ k, 0 ≤ k < Z.of_nat (length (points m)) ↔
       ∃ f, f ∈ faces m ∧ k ∈ face_list f.
Proof.
  intros Hnx Hny Hmesh k.
  destruct (RectMesher_mesh_Ok_inv _ _ _ _ _ _ _ _ _ Hmesh)
    as (xr & yr & bd & Hxr & Hyr & Hm).
  destruct (Mesh_init_fields _ _ _ _ _ Hm) as (-> & -> & _).
  destruct (linspace_Ok x0 x1 nx) as (xr' & Hxr' & Hlx); [lia|].
  destruct (linspace_Ok y0 y1 ny) as (yr' & Hyr' & Hly); [lia|].
  rewrite Hxr in Hxr'. rewrite Hyr in Hyr'.
  injection Hxr' as <-. injection Hyr' as <-.
  rewrite length_grid_points, Hlx, Hly.
  replace (Z.of_nat (Z.to_nat ny * Z.to_nat nx)) with (nx * ny) by nia.
  split.
  - intros Hk.
    set (i := k mod nx). set (j := k / nx).
    assert (Hi : 0 ≤ i < nx) by (apply Z.mod_pos_bound; lia).
    assert (Hkij : k = j * nx + i).
    { unfold i, j. rewrite (Z.div_mod k nx) at 1 by lia. lia. }
    assert (Hj : 0 ≤ j < ny) by nia.
    set (i' := Z.min i (nx - 2)). set (j' := Z.min j (ny - 2)).
    assert (Hcases : (i = i' ∨ i = i' + 1) ∧ (j = j' ∨ j = j' + 1)) by lia.
    assert (Hcell : ∀ f, f ∈ cell_faces nx i' j' → f ∈ grid_faces nx ny).
    { intros f Hf. apply elem_of_grid_faces. exists i', j'. split_and!; [lia..|done]. }
    unfold cell_faces, get_index in Hcell.
    destruct Hcases as [[Hi'|Hi'] [Hj'|Hj']].
    + eexists. split; [apply Hcell; left|]. simpl.
      rewrite Hkij, Hi', Hj'. set_solver.
    + eexists. split; [apply Hcell; right; left|]. simpl.
      rewrite Hkij, Hi', Hj'. set_solver.
    + eexists. split; [apply Hcell; left|]. simpl.
      rewrite Hkij, Hi', Hj'. set_solver.
    + eexists. split; [apply Hcell; left|]. simpl.
      rewrite Hkij, Hi', Hj'. set_solver.
  - intros (f & Hf & Hk).
    apply elem_of_grid_faces in Hf as (i & j & Hi & Hj & Hf).
    unfold cell_faces, get_index in Hf.
    repeat (apply elem_of_cons in Hf as [-> |Hf]); [| |by inversion Hf];
      simpl in Hk;
      repeat (apply elem_of_cons in Hk as [-> |Hk]); try (by inversion Hk); nia.
Qed.

Lemma linspace_last start stop num xs :
  1 < num → linspace start stop num = Ok xs →
  xs !! Z.to_nat (num - 1) = Some stop.
Proof.
  intros Hnum. unfold linspace. rewrite decide_False by lia.
  rewrite decide_True by done. intros [= <-].
  apply list_lookup_insert_eq. rewrite length_fmap, length_range. lia.
Qed.

(** X19. With at least two samples along each axis, [np.linspace] stores its
    end point as the last sample, whatever the rounding of the others: in a
    mesh produced by [RectMesher] every point of the last column has the
    abscissa of the second corner, every point of the last row has its
    ordinate, and the last point is the second corner. *)
Theorem RectMesher_corner_points area get_boundary x0 y0 x1 y1 nx ny m :
  2 ≤ nx → 2 ≤ ny →
  RectMesher_mesh area get_boundary
    {| corners := ((x0, y0), (x1, y1)); resolution := (nx, ny) |} = Ok m →
  (∀ j, 0 ≤ j < ny →
     ∃ y, points m !! Z.to_nat (j * nx + (nx - 1)) = Some (x1, y)) ∧
  (∀ i, 0 ≤ i < nx →
     ∃ x, points m !! Z.to_nat ((ny - 1) * nx + i) = Some (x, y1)) ∧
  points m !! Z.to_nat (nx * ny - 1) = Some (x1, y1).
Proof.
  intros Hnx Hny Hmesh.
  destruct (RectMesher_mesh_Ok_inv _ _ _ _ _ _ _ _ _ Hmesh)
    as (xr & yr & bd & Hxr & Hyr & Hm).
  destruct (Mesh_init_fields _ _ _ _ _ Hm) as (-> & _).
  destruct (linspace_Ok x0 x1 nx) as (xr' & Hxr' & Hlx); [lia|].
  destruct (linspace_Ok y0 y1 ny) as (yr' & Hyr' & Hly); [lia|].
  rewrite Hxr in Hxr'. rewrite Hyr in Hyr'.
  injection Hxr' as <-. injection Hyr' as <-.
  pose proof (linspace_last x0 x1 nx xr ltac:(lia) Hxr) as Hxb.
  pose proof (linspace_last y0 y1 ny yr ltac:(lia) Hyr) as Hyb.
  split_and!.
  - intros j Hj.
    destruct (lookup_lt_is_Some_2 yr (Z.to_nat j)) as [y Hy]; [lia|].
    exists y.
    replace (Z.to_nat (j * nx + (nx - 1)))
      with (Z.to_nat j * length xr + Z.to_nat (nx - 1))%nat by nia.
    by apply lookup_grid_points.
  - intros i Hi.
    destruct (lookup_lt_is_Some_2 xr (Z.to_nat i)) as [x Hx]; [lia|].
    exists x.
    replace (Z.to_nat ((ny - 1) * nx + i))
      with (Z.to_nat (ny - 1) * length xr + Z.to_nat i)%nat by nia.
    by apply lookup_grid_points.
  - replace (Z.to_nat (nx * ny - 1))
      with (Z.to_nat (ny - 1) * length xr + Z.to_nat (nx - 1))%nat by nia.
    by apply lookup_grid_points.
Qed.

(** ** EasyMesher: removal of faces *)




Section EasyMesherProperties.

Variable area : list point → Q.
Variable get_boundary : list point → list face → outcome (list segment).
Variable pip : point → list point → bool.




End EasyMesherProperties.

(** ** EasyMesher: renumbering of the points *)

Lemma elem_of_np_unique l x : x ∈ np_unique l ↔ x ∈ l.
Proof.
  unfold np_unique. by rewrite merge_sort_Permutation, elem_of_remove_dups.
Qed.

Lemma NoDup_np_unique l : NoDup (np_unique l).
Proof.
  unfold np_unique. rewrite merge_sort_Permutation. apply NoDup_remove_dups.
Qed.

Lemma fold_idx_map_other (l : list Z) k (d : gmap Z Z) old :
  old ∉ l →
  fold_left (λ d '(new, old), <[old := new]> d) (enumerate_from k l) d !! old
  = d !! old.
Proof.
  revert k d. induction l as [|x l IH]; intros k d Hnot; [done|].
  cbn [enumerate_from fold_left]. rewrite IH by set_solver.
  apply lookup_insert_ne. set_solver.
Qed.

Lemma fold_idx_map_lookup (l : list Z) k (d : gmap Z Z) (i : nat) old :
  NoDup l → l !! i = Some old →
  fold_left (λ d '(new, old), <[old := new]> d) (enumerate_from k l) d !! old
  = Some (k + Z.of_nat i).
Proof.
  intros Hnd. revert k d i.
  induction Hnd as [|x l Hx Hnd IH]; intros k d i Hi; [done|].
  cbn [enumerate_from fold_left]. destruct i as [|i]; simpl in Hi.
  - injection Hi as ->. rewrite fold_idx_map_other by done.
    rewrite lookup_insert_eq. f_equal. lia.
  - rewrite (IH _ _ i Hi). f_equal. lia.
Qed.

(** The renumbering dictionary maps each used index to its rank. *)
Lemma build_idx_map_lookup used old new :
  NoDup used →
  build_idx_map used !! old = Some new ↔
  ∃ i : nat, new = Z.of_nat i ∧ used !! i = Some old.
Proof.
  intros Hnd. unfold build_idx_map, enumerate. split.
  - intros Hl. destruct (decide (old ∈ used)) as [Hin|Hnot].
    + apply list_elem_of_lookup in Hin as [i Hi].
      rewrite (fold_idx_map_lookup used 0 ∅ i old Hnd Hi) in Hl.
      injection Hl as <-. exists i. split; [lia|done].
    + by rewrite fold_idx_map_other in Hl.
  - intros (i & -> & Hi).
    by rewrite (fold_idx_map_lookup used 0 ∅ i old Hnd Hi).
Qed.

Lemma remap_face_Some idx_map f f' :
  remap_face idx_map f = Some f' ↔
  ∀ k : nat, (k < 3)%nat → idx_map !! face_nth f k = Some (face_nth f' k).
Proof.
  destruct f as [[a b] c], f' as [[a' b'] c']. unfold remap_face. split.
  - intros H. destruct (idx_map !! a) as [xa|] eqn:Ha; [|done].
    destruct (idx_map !! b) as [xb|] eqn:Hb; [|done].
    destruct (idx_map !! c) as [xc|] eqn:Hc; [|done]. simpl in H.
    injection H as <- <- <-. intros [|[|[|k]]] Hk; simpl; [done..|lia].
  - intros H. pose proof (H 0%nat ltac:(lia)) as H0.
    pose proof (H 1%nat ltac:(lia)) as H1. pose proof (H 2%nat ltac:(lia)) as H2.
    simpl in H0, H1, H2. by rewrite H0, H1, H2.
Qed.

Lemma elem_of_face_list f v :
  v ∈ face_list f ↔ ∃ k : nat, (k < 3)%nat ∧ v = face_nth f k.
Proof.
  destruct f as [[a b] c]. simpl. split.
  - intros Hv. repeat (apply elem_of_cons in Hv as [-> |Hv]); [..|by inversion Hv].
    + exists 0%nat. split; [lia|done].
    + exists 1%nat. split; [lia|done].
    + exists 2%nat. split; [lia|done].
  - intros ([|[|[|k]]] & Hk & ->); simpl; try lia; set_solver.
Qed.

Lemma np_take_face_nth {A} (pts pts' : list A) f f' :
  (∀ k : nat, (k < 3)%nat →
     np_index pts' (face_nth f' k) = np_index pts (face_nth f k)) →
  np_take pts' f' = np_take pts f.
Proof.
  destruct f as [[a b] c], f' as [[a' b'] c']. intros H.
  pose proof (H 0%nat ltac:(lia)) as H0.
  pose proof (H 1%nat ltac:(lia)) as H1. pose proof (H 2%nat ltac:(lia)) as H2.
  simpl in H0, H1, H2. unfold np_take. simpl. by rewrite H0, H1, H2.
Qed.

Lemma compact_points_faces_ok pts fs :
  fs ≠ [] → faces_in_range pts fs →
  ∃ pts' fs',
    compact_points_faces pts fs = DOk (pts', fs') ∧
    length fs' = length fs ∧
    (∀ f' v, f' ∈ fs' → v ∈ face_list f' → 0 ≤ v < Z.of_nat (length pts')) ∧
    (∀ k, 0 ≤ k < Z.of_nat (length pts') → ∃ f', f' ∈ fs' ∧ k ∈ face_list f') ∧
    (∀ (i : nat) f f', fs !! i = Some f → fs' !! i = Some f' →
       np_take pts' f' = np_take pts f).
Proof.
  intros Hne Hr.
  set (used := np_unique (flat_map face_list fs)).
  assert (Hnd : NoDup used) by apply NoDup_np_unique.
  assert (Hused : ∀ v, v ∈ used ↔ ∃ f, f ∈ fs ∧ v ∈ face_list f).
  { intros v. unfold used. by rewrite elem_of_np_unique, elem_of_flat_map. }
  set (g := λ v, match np_index pts v with Ok x => x | Raise _ => (0, 0)%Q end).
  assert (Hg : ∀ v, v ∈ used → np_index pts v = Ok (g v)).
  { intros v Hv. apply Hused in Hv as (f & Hf & Hv). unfold g.
    by destruct (np_index_valid pts v (Hr f v Hf Hv)) as (x & -> & _). }
  assert (Hpts : omap (np_index pts) used = Ok (g <$> used))
    by (by apply omap_Ok_fmap).
  assert (Hmap : ∀ v, v ∈ used →
            ∃ i : nat, used !! i = Some v ∧
                       build_idx_map used !! v = Some (Z.of_nat i)).
  { intros v Hv. apply list_elem_of_lookup in Hv as [i Hi]. exists i.
    split; [done|]. apply build_idx_map_lookup; eauto. }
  assert (Hsome : is_Some (remap_faces (build_idx_map used) fs)).
  { apply mapM_is_Some, Forall_forall. intros [[a b] c] Hf. simpl.
    destruct (Hmap a) as (ia & _ & ->); [apply Hused; eexists; split; [done|]; set_solver|].
    destruct (Hmap b) as (ib & _ & ->); [apply Hused; eexists; split; [done|]; set_solver|].
    destruct (Hmap c) as (ic & _ & ->); [apply Hused; eexists; split; [done|]; set_solver|].
    by eexists. }
  destruct Hsome as [fs' Hfs'].
  pose proof (proj1 (mapM_Some _ _ _) Hfs') as Hall.
  exists (g <$> used), fs'. split_and!.
  - unfold compact_points_faces. fold used. rewrite decide_False by done.
    by rewrite Hpts, Hfs'.
  - symmetry. by eapply Forall2_length.
  - intros f' v Hf' Hv. rewrite length_fmap.
    apply list_elem_of_lookup in Hf' as [i Hi].
    destruct (Forall2_lookup_r _ _ _ _ _ Hall Hi) as (f & Hf & Hremap).
    pose proof (proj1 (remap_face_Some _ _ _) Hremap) as Hnth.
    clear Hremap. rename Hnth into Hremap.
    apply elem_of_face_list in Hv as (k & Hk & ->).
    apply Hremap in Hk. apply build_idx_map_lookup in Hk as (j & -> & Hj); [|done].
    apply lookup_lt_Some in Hj. lia.
  - intros k Hk. rewrite length_fmap in Hk.
    destruct (lookup_lt_is_Some_2 used (Z.to_nat k)) as [v Hv]; [lia|].
    assert (Hin : v ∈ used) by (by eapply list_elem_of_lookup_2).
    apply Hused in Hin as (f & Hf & Hvf).
    apply list_elem_of_lookup in Hf as [i Hi].
    destruct (Forall2_lookup_l _ _ _ _ _ Hall Hi) as (f' & Hf' & Hremap).
    exists f'. split; [by eapply list_elem_of_lookup_2|].
    pose proof (proj1 (remap_face_Some _ _ _) Hremap) as Hnth.
    clear Hremap. rename Hnth into Hremap.
    apply elem_of_face_list in Hvf as (p & Hp & ->).
    apply elem_of_face_list. exists p. split; [done|].
    specialize (Hremap p Hp).
    assert (Hk' : build_idx_map used !! face_nth f p = Some k).
    { apply build_idx_map_lookup; [done|]. exists (Z.to_nat k). split; [lia|done]. }
    congruence.
  - intros i f f' Hf Hf'.
    destruct (Forall2_lookup_l _ _ _ _ _ Hall Hf) as (f'' & Hf'' & Hremap).
    rewrite Hf' in Hf''. injection Hf'' as <-.
    pose proof (proj1 (remap_face_Some _ _ _) Hremap) as Hnth.
    clear Hremap. rename Hnth into Hremap. apply np_take_face_nth. intros k Hk.
    specialize (Hremap k Hk).
    apply build_idx_map_lookup in Hremap as (j & -> & Hj); [|done].
    rewrite (np_index_nat (g <$> used) j (g (face_nth f k)))
      by (by rewrite list_lookup_fmap, Hj).
    symmetry. apply Hg. by eapply list_elem_of_lookup_2.
Qed.

(** X26. The renumbering step of [EasyMesher.mesh], on at least one face
    whose vertex indices are valid: it returns as many faces, every new
    vertex index is the index of a kept point, every kept point is a vertex
    of some face, and every face keeps the coordinates of its three
    corners. *)
Theorem compact_points_faces_spec pts fs :
  fs ≠ [] → faces_in_range pts fs →
  ∃ pts' fs',
    compact_points_faces pts fs = DOk (pts', fs') ∧
    length fs' = length fs ∧
    (∀ f' v, f' ∈ fs' → v ∈ face_list f' → 0 ≤ v < Z.of_nat (length pts')) ∧
    (∀ k, 0 ≤ k < Z.of_nat (length pts') → ∃ f', f' ∈ fs' ∧ k ∈ face_list f') ∧
    (∀ (i : nat) f f', fs !! i = Some f → fs' !! i = Some f' →
       np_take pts' f' = np_take pts f).
Proof.
  intros Hne Hr.
  destruct (compact_points_faces_ok pts fs Hne Hr) as (pts' & fs' & Hok).
  by exists pts', fs'.
Qed.

(** ** EasyMesher: the mesh of the lattice *)

Section EasyMesherLattice.

Variable area : list point → Q.
Variable get_boundary : list point → list face → outcome (list segment).
Variable pip : point → list point → bool.





End EasyMesherLattice.

(** ** Concrete runs of the further properties *)

(** The boundary vertices of the unit square. *)
Lemma boundary_idxs_of_mesh_witness :
  ∃ m,
    Mesh_init triangle_area_spec square_points square_faces square_boundary = Ok m ∧
    NoDup (boundary_idxs m) ∧
    ∀ v, v ∈ boundary_idxs m ↔ ∃ s, s ∈ boundary m ∧ (v = s.1 ∨ v = s.2).
Proof.
  eexists. split; [vm_compute; reflexivity|].
  apply (boundary_idxs_of_mesh triangle_area_spec square_points square_faces
           square_boundary).
  vm_compute. reflexivity.
Defined.

(** The unit square with its four vertices displaced. *)
Lemma get_deformed_mesh_displaces_witness :
  ∃ m,
    Mesh_init triangle_area_spec square_points square_faces square_boundary = Ok m ∧
    points m ≠ [] ∧
    length square_displacement = (2 * length (points m))%nat ∧
    ∃ m',
      get_deformed_mesh triangle_area_spec m square_displacement = Ok m' ∧
      faces m' = faces m ∧ boundary m' = boundary m ∧
      boundary_idxs m' = boundary_idxs m ∧ edges m' = edges m ∧
      length (points m') = length (points m) ∧
      ∀ (i : nat) p, points m !! i = Some p →
        ∃ dx dy, square_displacement !! (2 * i)%nat = Some dx ∧
                 square_displacement !! (2 * i + 1)%nat = Some dy ∧
                 points m' !! i = Some (p.1 + dx, p.2 + dy)%Q.
Proof.
  eexists. split; [vm_compute; reflexivity|].
  split; [discriminate|]. split; [reflexivity|].
  apply (get_deformed_mesh_displaces triangle_area_spec square_points
           square_faces square_boundary).
  - vm_compute. reflexivity.
  - discriminate.
  - reflexivity.
Defined.

(** The unit square under the zero displacement. *)
Lemma get_deformed_mesh_zero_witness :
  ∃ m,
    Mesh_init triangle_area_spec square_points square_faces square_boundary = Ok m ∧
    points m ≠ [] ∧
    get_deformed_mesh triangle_area_spec m
      (replicate (2 * length (points m)) 0%Q) = Ok m.
Proof.
  eexists. split; [vm_compute; reflexivity|]. split; [discriminate|].
  apply (get_deformed_mesh_zero triangle_area_spec square_points square_faces
           square_boundary).
  - vm_compute. reflexivity.
  - discriminate.
Defined.

(** Displacements of three entries and of six entries on the unit square,
    which has four points. *)
Lemma get_deformed_mesh_shape_errors_witness :
  ∃ m,
    Mesh_init triangle_area_spec square_points square_faces square_boundary = Ok m ∧
    get_deformed_mesh triangle_area_spec m [1; 2; 3]%Q = Raise ValueError ∧
    get_deformed_mesh triangle_area_spec m [1; 2; 3; 4; 5; 6]%Q = Raise ValueError.
Proof.
  eexists. split; [vm_compute; reflexivity|]. split.
  - apply (proj1 (get_deformed_mesh_shape_errors triangle_area_spec _ [1; 2; 3]%Q 1)).
    reflexivity.
  - apply (proj2 (get_deformed_mesh_shape_errors triangle_area_spec _
                    [1; 2; 3; 4; 5; 6]%Q 3)).
    + reflexivity.
    + simpl. lia.
    + lia.
    + simpl. lia.
Defined.

(** The unit square translated by [(3, 1/2)]. *)
Lemma get_deformed_mesh_translates_witness :
  ∃ m,
    Mesh_init triangle_area_spec square_points square_faces square_boundary = Ok m ∧
    points m ≠ [] ∧
    ∃ m',
      get_deformed_mesh triangle_area_spec m [3; 1 # 2]%Q = Ok m' ∧
      points m' = (λ p, (p.1 + 3, p.2 + (1 # 2))%Q) <$> points m ∧
      faces m' = faces m ∧ boundary m' = boundary m ∧
      boundary_idxs m' = boundary_idxs m ∧ edges m' = edges m.
Proof.
  eexists. split; [vm_compute; reflexivity|]. split; [discriminate|].
  apply (get_deformed_mesh_translates triangle_area_spec square_points
           square_faces square_boundary).
  - vm_compute. reflexivity.
  - discriminate.
Defined.

(** The axis-aligned edges of the unit square among the vertices 0, 1, 2. *)
Lemma get_edges_in_idxs_selects_witness :
  ∃ m,
    Mesh_init triangle_area_spec square_points square_faces square_boundary = Ok m ∧
    ∃ r, get_edges_in_idxs m [0; 1; 2] true = Ok r ∧ r `sublist_of` edges m ∧
         ∀ e, e ∈ r ↔ e ∈ edges m ∧ e.1 ∈ [0; 1; 2] ∧ e.2 ∈ [0; 1; 2] ∧
                      (true = true → axis_aligned (points m) e).
Proof.
  eexists. split; [vm_compute; reflexivity|].
  apply (get_edges_in_idxs_selects triangle_area_spec square_points square_faces
           square_boundary).
  vm_compute. reflexivity.
Defined.

(** The boundary vertices of the unit square in its left half. *)
Lemma get_boundary_idxs_in_rect_selects_witness :
  ∃ m,
    Mesh_init triangle_area_spec square_points square_faces square_boundary = Ok m ∧
    (∀ s, s ∈ square_boundary →
          valid_index (length square_points) s.1 ∧
          valid_index (length square_points) s.2) ∧
    ∃ r, get_boundary_idxs_in_rect m (0, 0, 1 # 2, 1)%Q = Ok r ∧ NoDup r ∧
         ∀ v, v ∈ r ↔ v ∈ boundary_idxs m ∧
                      ∃ p, np_index (points m) v = Ok p ∧
                           inside_rect (0, 0, 1 # 2, 1)%Q p.
Proof.
  assert (Hbd : ∀ s, s ∈ square_boundary →
                  valid_index (length square_points) s.1 ∧
                  valid_index (length square_points) s.2).
  { intros s Hs. unfold square_boundary in Hs.
    repeat (apply elem_of_cons in Hs as [-> |Hs]); [..|by inversion Hs];
      unfold valid_index; simpl; lia. }
  eexists. split; [vm_compute; reflexivity|]. split; [exact Hbd|].
  apply (get_boundary_idxs_in_rect_selects triangle_area_spec square_points
           square_faces square_boundary); [|exact Hbd].
  vm_compute. reflexivity.
Defined.

(** The unit square with a boundary segment to a vertex it does not have. *)
Lemma get_boundary_idxs_in_rect_out_of_range_witness :
  ∃ m,
    Mesh_init triangle_area_spec square_points square_faces dangling_boundary = Ok m ∧
    (0, 7) ∈ dangling_boundary ∧
    (¬ valid_index (length square_points) (0, 7).1 ∨
     ¬ valid_index (length square_points) (0, 7).2) ∧
    get_boundary_idxs_in_rect m (0, 0, 1, 1)%Q = Raise IndexError.
Proof.
  assert (Hbad : ¬ valid_index (length square_points) (0, 7).1 ∨
                 ¬ valid_index (length square_points) (0, 7).2).
  { right. unfold valid_index. simpl. lia. }
  eexists. split; [vm_compute; reflexivity|]. split; [left|]. split; [exact Hbad|].
  apply (get_boundary_idxs_in_rect_out_of_range triangle_area_spec square_points
           square_faces dangling_boundary _ _ (0, 7)); [|left|exact Hbad].
  vm_compute. reflexivity.
Defined.

(** The kinetic energy on the unit square of a rate given per face. *)
Lemma calculate_energy_kinetic_witness :
  ∃ m,
    Mesh_init triangle_area_spec square_points square_faces square_boundary = Ok m ∧
    length [3; 4]%Q = length (faces m) ∧
    ∃ e, ∀ u, calculate_energy m u [3; 4]%Q = Ok e.
Proof.
  eexists. split; [vm_compute; reflexivity|]. split; [reflexivity|].
  apply (proj1 (calculate_energy_kinetic triangle_area_spec square_points
                  square_faces square_boundary _ [3; 4]%Q
                  ltac:(vm_compute; reflexivity))).
  left. reflexivity.
Defined.

(** The four points of the unit square without any face. *)
Lemma calculate_mean_value_no_face_witness :
  ∃ m,
    Mesh_init triangle_area_spec square_points [] square_boundary = Ok m ∧
    faces m = [] ∧
    calculate_mean_value m [1; 1; 1; 1]%Q = Raise ZeroDivisionError ∧
    calculate_mean_value m [1; 1]%Q = Raise TypeError.
Proof.
  eexists. split; [vm_compute; reflexivity|]. split; [reflexivity|]. split.
  - match goal with
    | |- calculate_mean_value ?m ?u = _ =>
        exact (calculate_mean_value_no_face m u eq_refl)
    end.
  - match goal with
    | |- calculate_mean_value ?m ?u = _ =>
        exact (calculate_mean_value_no_face m u eq_refl)
    end.
Defined.

(** [RectMesher((0,0),(2,1), resolution=(-1,3))]. *)
Lemma RectMesher_mesh_negative_resolution_witness :
  (-1 < 0 ∨ 3 < 0) ∧
  RectMesher_mesh triangle_area_spec boundary_spec
    {| corners := ((0, 0), (2, 1))%Q; resolution := (-1, 3) |} = Raise ValueError.
Proof.
  assert (Hneg : -1 < 0 ∨ 3 < 0) by (left; lia).
  split; [exact Hneg|].
  exact (RectMesher_mesh_negative_resolution triangle_area_spec boundary_spec
           ((0, 0), (2, 1))%Q (-1) 3 Hneg).
Defined.

(** The face neighbors of [RectMesher((0,0),(2,1), resolution=(3,3))]. *)
Lemma RectMesher_face_neighbors_witness :
  2 ≤ 3 ∧
  ∃ m, RectMesher_mesh triangle_area_spec boundary_spec
         {| corners := ((0, 0), (2, 1))%Q; resolution := (3, 3) |} = Ok m ∧
       ∀ A B, is_neighbor m A B ↔
         ∃ fA fB, lookup_face (faces m) A = Some fA ∧
                  lookup_face (faces m) B = Some fB ∧ share_exactly_two fA fB.
Proof.
  split; [lia|]. eexists. split; [vm_compute; reflexivity|].
  apply (RectMesher_face_neighbors triangle_area_spec boundary_spec 0 0 2 1 3 3).
  - lia.
  - vm_compute. reflexivity.
Defined.

(** [RectMesher((0,0),(2,1), resolution=(3,3))] has no orphan point. *)
Lemma RectMesher_no_orphan_point_witness :
  2 ≤ 3 ∧ 2 ≤ 3 ∧
  ∃ m, RectMesher_mesh triangle_area_spec boundary_spec
         {| corners := ((0, 0), (2, 1))%Q; resolution := (3, 3) |} = Ok m ∧
       ∀ k, 0 ≤ k < Z.of_nat (length (points m)) ↔
            ∃ f, f ∈ faces m ∧ k ∈ face_list f.
Proof.
  split; [lia|]. split; [lia|]. eexists. split; [vm_compute; reflexivity|].
  apply (RectMesher_no_orphan_point triangle_area_spec boundary_spec 0 0 2 1 3 3).
  - lia.
  - lia.
  - vm_compute. reflexivity.
Defined.

(** The last column, the last row and the last point of
    [RectMesher((0,0),(2,1), resolution=(3,3))]. *)
Lemma RectMesher_corner_points_witness :
  2 ≤ 3 ∧ 2 ≤ 3 ∧
  ∃ m, RectMesher_mesh triangle_area_spec boundary_spec
         {| corners := ((0, 0), (2, 1))%Q; resolution := (3, 3) |} = Ok m ∧
       (∀ j, 0 ≤ j < 3 →
          ∃ y, points m !! Z.to_nat (j * 3 + (3 - 1)) = Some (2, y)%Q) ∧
       (∀ i, 0 ≤ i < 3 →
          ∃ x, points m !! Z.to_nat ((3 - 1) * 3 + i) = Some (x, 1)%Q) ∧
       points m !! Z.to_nat (3 * 3 - 1) = Some (2, 1)%Q.
Proof.
  split; [lia|]. split; [lia|]. eexists. split; [vm_compute; reflexivity|].
  apply (RectMesher_corner_points triangle_area_spec boundary_spec 0 0 2 1 3 3).
  - lia.
  - lia.
  - vm_compute. reflexivity.
Defined.

(** The lines printed by the one-degree-of-freedom solver. *)
Lemma solve_progress_lines_witness :
  ∃ res w',
    scalar_solve_call None = (Ok res, w') ∧
    ∃ means,
      length means = length (t_values res) ∧
      stdout w' = stdout scalar_world ++
                  Banner :: zip_with Progress (t_values res) means.
Proof.
  eexists _, _. split; [vm_compute; reflexivity|].
  eapply (solve_progress_lines scalar_add scalar_scale scalar_matmul scalar_solve
            unit tt tt tt scalar_assemble scalar_assemble scalar_mean
            scalar_solver 5%nat None None scalar_world).
  vm_compute. reflexivity.
Defined.

(** The fields recorded by the one-degree-of-freedom solver. *)
Lemma solve_fresh_fields_witness :
  ∃ res w',
    scalar_solve_call None = (Ok res, w') ∧
    (∀ (i : nat) l, u_values res !! S i = Some l →
       heap scalar_world !! l = None ∧ is_Some (heap w' !! l)) ∧
    (is_Some (heap scalar_world !! 5%nat) → NoDup (u_values res)).
Proof.
  eexists _, _. split; [vm_compute; reflexivity|].
  eapply (solve_fresh_fields scalar_add scalar_scale scalar_matmul scalar_solve
            unit tt tt tt scalar_assemble scalar_assemble scalar_mean
            scalar_solver 5%nat None None scalar_world).
  vm_compute. reflexivity.
Defined.

(** The initial field of the one-degree-of-freedom solver after a call with
    a Robin condition. *)
Lemma solve_modifies_no_array_witness :
  heap scalar_world !! 5%nat = Some (Q2Qc 5) ∧
  heap (scalar_solve_call (Some scalar_robin)).2 !! 5%nat = Some (Q2Qc 5).
Proof.
  split; [reflexivity|].
  apply (solve_modifies_no_array scalar_add scalar_scale scalar_matmul
           scalar_solve unit tt tt tt scalar_assemble scalar_assemble scalar_mean
           scalar_solver 5%nat (Some scalar_robin) None scalar_world).
  reflexivity.
Defined.

(** The one-degree-of-freedom solver asked for no time step. *)
Lemma solve_no_iteration_witness :
  num_iterations idle_solver ≤ 0 ∧
  ∃ res w',
    idle_solve_call = (Ok res, w') ∧
    t_values res = [0%Q] ∧ u_values res = [5%nat].
Proof.
  split; [simpl; lia|].
  eexists _, _. split; [vm_compute; reflexivity|].
  eapply (solve_no_iteration scalar_add scalar_scale scalar_matmul scalar_solve
            unit tt tt tt scalar_assemble scalar_assemble scalar_mean
            idle_solver 5%nat None None scalar_world).
  - simpl. lia.
  - vm_compute. reflexivity.
Defined.


(** The renumbering of one face that leaves out the second of four points. *)
Lemma compact_points_faces_spec_witness :
  [(0, 2, 3)] ≠ @nil face ∧ faces_in_range square_points [(0, 2, 3)] ∧
  ∃ pts' fs',
    compact_points_faces square_points [(0, 2, 3)] = DOk (pts', fs') ∧
    length fs' = length [(0, 2, 3) : face] ∧
    (∀ f' v, f' ∈ fs' → v ∈ face_list f' → 0 ≤ v < Z.of_nat (length pts')) ∧
    (∀ k, 0 ≤ k < Z.of_nat (length pts') → ∃ f', f' ∈ fs' ∧ k ∈ face_list f') ∧
    (∀ (i : nat) f f', [(0, 2, 3) : face] !! i = Some f → fs' !! i = Some f' →
       np_take pts' f' = np_take square_points f).
Proof.
  assert (Hr : faces_in_range square_points [(0, 2, 3)]).
  { apply faces_in_range_Forall.
    repeat constructor; unfold valid_index; simpl; lia. }
  split; [discriminate|]. split; [exact Hr|].
  apply (compact_points_faces_spec square_points [(0, 2, 3)]);
    [discriminate|exact Hr].
Defined.


